(** * process_pdfs.py: text-to-graph pipeline, shallow embedding

    The development follows [src/document_neo4j_etl/src/process_pdfs.py]:

    - Python values: [str] as a list of characters, [int] as [Z], exceptions
      as a result type, slicing and [range] with their out-of-range rules;
    - the chunker [_split_documents_into_chunks];
    - [networkx.Graph] as the two insertion-ordered dictionaries it keeps
      ([_node] and [_adj]);
    - the graph builder [_build_graph_from_summaries], in a small monad that
      threads the graph and the log and carries exceptions;
    - the top-level [process_txts_and_update_neo4j] with its
      [try]/[except]/[finally];
    - the two stages that ask the completion service,
      [_extract_elements_from_chunks] and [_summarize_elements], the writer
      [_update_neo4j_with_graph] and the stages run on a directory,
      [_process_txts_and_update_neo4j], each with its collaborators (service,
      driver, file system) given by what their calls do.

    Characters are code points below 256 ([ascii]); [str.isspace] and
    [str.isdigit] are the Unicode predicates restricted to that range. *)

From Stdlib Require Import String Ascii List ZArith Lia Bool Arith.
Import ListNotations.
Local Open Scope list_scope.

(** ** Python values *)

Definition str := list ascii.

(** A string literal of the source. *)
Definition lit (s : string) : str := list_ascii_of_string s.

Inductive exn :=
| IndexError
| ValueError
| UnboundLocalError
| DriverError
| KeyboardInterrupt.

(** [except Exception] catches every exception class used here but
    [KeyboardInterrupt], which derives from [BaseException] only. *)
Definition is_Exception (e : exn) : bool :=
  match e with
  | KeyboardInterrupt => false
  | _ => true
  end.

Inductive result (A : Type) :=
| Ok (a : A)
| Raise (e : exn).
Arguments Ok {A} a.
Arguments Raise {A} e.

Definition len {A} (l : list A) : Z := Z.of_nat (length l).

(** Index normalisation of a slice bound: a negative bound counts from the
    end, and the bound is then clamped to [0 .. len]. *)
Definition adjust_index (n i : Z) : Z :=
  let i := if (i <? 0)%Z then (i + n)%Z else i in
  if (i <? 0)%Z then 0%Z else if (n <? i)%Z then n else i.

(** [l[start:stop]] *)
Definition py_slice {A} (l : list A) (start stop : Z) : list A :=
  let a := adjust_index (len l) start in
  let b := adjust_index (len l) stop in
  firstn (Z.to_nat (b - a)) (skipn (Z.to_nat a) l).

(** [l[i]], which raises [IndexError] out of range. *)
Definition py_index {A} (l : list A) (i : Z) : result A :=
  let j := if (i <? 0)%Z then (i + len l)%Z else i in
  if (j <? 0)%Z then Raise IndexError
  else match nth_error l (Z.to_nat j) with
       | Some x => Ok x
       | None => Raise IndexError
       end.

(** [range(start, stop, step)]: a zero step raises [ValueError]; otherwise
    the length is computed as CPython does. *)
Definition range_len (start stop step : Z) : Z :=
  if (0 <? step)%Z then
    if (start <? stop)%Z then ((stop - start - 1) / step + 1)%Z else 0%Z
  else
    if (stop <? start)%Z then ((start - stop - 1) / (- step) + 1)%Z else 0%Z.

Definition py_range (start stop step : Z) : result (list Z) :=
  if (step =? 0)%Z then Raise ValueError
  else Ok (map (fun k => (start + Z.of_nat k * step)%Z)
               (seq 0 (Z.to_nat (range_len start stop step)))).

(** ** The chunker *)

(** The inner loop of [_split_documents_into_chunks]: one [append] per index
    of the range. *)
Fixpoint chunk_loop (document : str) (chunk_size : Z) (idx : list Z)
    (chunks : list str) : list str :=
  match idx with
  | [] => chunks
  | i :: idx' =>
      let chunk := py_slice document i (i + chunk_size) in
      chunk_loop document chunk_size idx' (chunks ++ [chunk])
  end.

(** The outer loop; [range] is evaluated once per document, so its
    [ValueError] only shows when there is a document to chunk. *)
Fixpoint documents_loop (documents : list str) (chunk_size overlap_size : Z)
    (chunks : list str) : result (list str) :=
  match documents with
  | [] => Ok chunks
  | document :: documents' =>
      match py_range 0 (len document) (chunk_size - overlap_size) with
      | Raise e => Raise e
      | Ok idx =>
          documents_loop documents' chunk_size overlap_size
            (chunk_loop document chunk_size idx chunks)
      end
  end.

Definition _split_documents_into_chunks (documents : list str)
    (chunk_size overlap_size : Z) : result (list str) :=
  documents_loop documents chunk_size overlap_size [].

(** The defaults of the signature. *)
Definition default_chunk_size : Z := 600.
Definition default_overlap_size : Z := 100.

(** What the chunk properties speak about: the trailing [m] characters of a
    chunk, and the concatenation of the parts of the chunks that do not
    overlap with their successor. *)
Definition lastn {A} (m : nat) (l : list A) : list A :=
  skipn (length l - m) l.

Fixpoint non_overlapping (step : nat) (chunks : list str) : str :=
  match chunks with
  | [] => []
  | [c] => c
  | c :: rest => firstn step c ++ non_overlapping step rest
  end.

(** ** Python [str] methods *)

Fixpoint str_eqb (a b : str) : bool :=
  match a, b with
  | [], [] => true
  | x :: a', y :: b' => Ascii.eqb x y && str_eqb a' b'
  | _, _ => false
  end.

(** [c.isspace()] for a code point below 256: the controls TAB..CR and
    FS..US, the space, NEL (U+0085) and the no-break space (U+00A0). *)
Definition isspace (c : ascii) : bool :=
  let n := nat_of_ascii c in
  ((9 <=? n) && (n <=? 13)) || ((28 <=? n) && (n <=? 32))
  || (n =? 133) || (n =? 160).

(** [c.isdigit()] for a code point below 256: the digits 0..9 and the
    superscripts two, three and one (U+00B2, U+00B3, U+00B9). *)
Definition isdigit (c : ascii) : bool :=
  let n := nat_of_ascii c in
  ((48 <=? n) && (n <=? 57)) || (n =? 178) || (n =? 179) || (n =? 185).

Fixpoint lstrip (s : str) : str :=
  match s with
  | [] => []
  | c :: r => if isspace c then lstrip r else s
  end.

Definition rstrip (s : str) : str := rev (lstrip (rev s)).

(** [s.strip()] *)
Definition strip (s : str) : str := rstrip (lstrip s).

(** Truth value of a string: non-empty. *)
Definition truthy (s : str) : bool :=
  match s with
  | [] => false
  | _ :: _ => true
  end.

(** [s.startswith(prefix)] *)
Fixpoint startswith (s prefix : str) {struct prefix} : bool :=
  match prefix, s with
  | [], _ => true
  | _ :: _, [] => false
  | p :: prefix', c :: s' => Ascii.eqb c p && startswith s' prefix'
  end.

(** Cons on the first part of a split. *)
Definition cons_first (c : ascii) (parts : list str) : list str :=
  match parts with
  | [] => [[c]]
  | p :: ps => (c :: p) :: ps
  end.

(** [s.split(sep)] for a non-empty [sep], scanning left to right; [skip]
    counts the characters of a matched separator still to be passed over. *)
Fixpoint split_go (sep : str) (skip : nat) (s : str) : list str :=
  match s with
  | [] => [[]]
  | c :: r =>
      match skip with
      | S k => split_go sep k r
      | O =>
          if startswith s sep
          then [] :: split_go sep (length sep - 1) r
          else cons_first c (split_go sep 0 r)
      end
  end.

Definition split (s sep : str) : list str := split_go sep 0 s.

(** [s.split(sep, 1)]: at most one cut, at the first occurrence. *)
Fixpoint split1 (s sep : str) : list str :=
  match s with
  | [] => [[]]
  | c :: r =>
      if startswith s sep
      then [[]; skipn (length sep) s]
      else cons_first c (split1 r sep)
  end.

(** [s.replace(old, new)] for a non-empty [old]. *)
Fixpoint replace_go (old new : str) (skip : nat) (s : str) : str :=
  match s with
  | [] => []
  | c :: r =>
      match skip with
      | S k => replace_go old new k r
      | O =>
          if startswith s old
          then new ++ replace_go old new (length old - 1) r
          else c :: replace_go old new 0 r
      end
  end.

Definition replace (s old new : str) : str := replace_go old new 0 s.

(** [sep.join(parts)] *)
Fixpoint join (sep : str) (parts : list str) : str :=
  match parts with
  | [] => []
  | [p] => p
  | p :: ps => p ++ sep ++ join sep ps
  end.

Definition newline : str := [ascii_of_nat 10].
Definition arrow : str := lit "->".

(** ** Insertion-ordered dictionaries with string keys *)

Definition dict (V : Type) := list (str * V).

Definition keys {V} (d : dict V) : list str := map fst d.

Fixpoint dict_get {V} (d : dict V) (k : str) : option V :=
  match d with
  | [] => None
  | (k', v) :: d' => if str_eqb k' k then Some v else dict_get d' k
  end.

Definition dict_contains {V} (d : dict V) (k : str) : bool :=
  match dict_get d k with
  | Some _ => true
  | None => false
  end.

(** [d[k] = v]: an existing key keeps its place, a new one goes last. *)
Fixpoint dict_set {V} (d : dict V) (k : str) (v : V) : dict V :=
  match d with
  | [] => [(k, v)]
  | (k', v') :: d' =>
      if str_eqb k' k then (k', v) :: d' else (k', v') :: dict_set d' k v
  end.

(** ** networkx.Graph

    An undirected graph without parallel edges.  The class keeps [_node]
    (node to attribute dict) and [_adj] (node to neighbour to edge attribute
    dict); every method used here writes both under the same key at once, and
    no node attribute is ever set, so [_node] is [_adj] with empty values and
    the record keeps [_adj] alone.  The only edge attribute is ['label'], so
    an edge attribute dict is its label.  [add_edge] stores one dict object
    under both [_adj[u][v]] and [_adj[v][u]]; both entries are rewritten by
    every [add_edge] on the pair, so keeping the label by value in both
    places is the same store. *)

Record Graph := mkGraph { _adj : dict (dict str) }.

(** [nx.Graph()] *)
Definition empty_graph : Graph := mkGraph [].

(** [self._adj[n]], for a node that is present. *)
Definition nbrs_of (adj : dict (dict str)) (n : str) : dict str :=
  match dict_get adj n with
  | Some d => d
  | None => []
  end.

(** [if n not in self._node: self._adj[n] = {}; self._node[n] = {}] *)
Definition ensure_node (adj : dict (dict str)) (n : str) : dict (dict str) :=
  if dict_contains adj n then adj else dict_set adj n [].

Definition add_node (G : Graph) (n : str) : Graph :=
  mkGraph (ensure_node (_adj G) n).

Definition add_edge (G : Graph) (u v : str) (label : str) : Graph :=
  let adj := ensure_node (_adj G) u in
  let adj := ensure_node adj v in
  let datadict := label in
  let adj := dict_set adj u (dict_set (nbrs_of adj u) v datadict) in
  let adj := dict_set adj v (dict_set (nbrs_of adj v) u datadict) in
  mkGraph adj.

(** [list(G.nodes)] *)
Definition nodes (G : Graph) : list str := keys (_adj G).

Definition mem (k : str) (l : list str) : bool := existsb (str_eqb k) l.

(** [list(G.edges(data=True))], each edge reported once, from the endpoint
    met first in node order; [seen] holds the nodes already walked. *)
Fixpoint edges_go (seen : list str) (adj : dict (dict str))
    : list (str * str * str) :=
  match adj with
  | [] => []
  | (n, nbrs) :: adj' =>
      map (fun e => (n, fst e, snd e))
          (filter (fun e => negb (mem (fst e) seen)) nbrs)
      ++ edges_go (n :: seen) adj'
  end.

Definition edges (G : Graph) : list (str * str * str) := edges_go [] (_adj G).

(** [G.has_node(n)] *)
Definition has_node (G : Graph) (n : str) : bool := dict_contains (_adj G) n.

(** [G.get_edge_data(u, v)], reduced to the label. *)
Definition get_edge_data (G : Graph) (u v : str) : option str :=
  match dict_get (_adj G) u with
  | Some d => dict_get d v
  | None => None
  end.

(** [G.number_of_edges(u, v)] for a node [u] of the graph: 1 when the edge
    is stored and 0 otherwise.  (On a [u] that is no node networkx raises
    [KeyError]; the program does not call the method, which only serves
    below to count the entries of the edge view.) *)
Definition number_of_edges (G : Graph) (u v : str) : nat :=
  match get_edge_data G u v with
  | Some _ => 1
  | None => 0
  end.

(** An entry of [G.edges] lies between [u] and [v], in either order. *)
Definition joins (u v : str) (e : str * str * str) : bool :=
  (str_eqb (fst (fst e)) u && str_eqb (snd (fst e)) v)
  || (str_eqb (fst (fst e)) v && str_eqb (snd (fst e)) u).

(** ** State and exceptions

    A computation reads and writes a state [W] and either returns or raises;
    the state written before a [raise] stays written. *)

Definition M (W A : Type) : Type := W -> W * result A.

Definition ret {W A} (a : A) : M W A := fun w => (w, Ok a).

Definition raise {W A} (e : exn) : M W A := fun w => (w, Raise e).

Definition lift {W A} (r : result A) : M W A := fun w => (w, r).

Definition bind {W A B} (m : M W A) (f : A -> M W B) : M W B :=
  fun w =>
    match m w with
    | (w', Ok a) => f a w'
    | (w', Raise e) => (w', Raise e)
    end.

Notation "x <- m ;; k" := (bind m (fun x => k))
  (at level 61, m at next level, right associativity).
Notation "m ;;; k" := (bind m (fun _ => k))
  (at level 61, right associativity).

(** [try: body / except Exception as e: handler e] *)
Definition try_except {W A} (body : M W A) (handler : exn -> M W A) : M W A :=
  fun w =>
    match body w with
    | (w', Ok a) => (w', Ok a)
    | (w', Raise e) => if is_Exception e then handler e w' else (w', Raise e)
    end.

(** [try: body / finally: final]: [final] always runs; when it raises, its
    exception replaces the outcome of [body]. *)
Definition try_finally {W A} (body : M W A) (final : M W unit) : M W A :=
  fun w =>
    match body w with
    | (w', r) =>
        match final w' with
        | (w'', Ok _) => (w'', r)
        | (w'', Raise e) => (w'', Raise e)
        end
    end.

(** [for x in xs: s = body x s], left at the first exception. *)
Fixpoint for_each {W A S} (xs : list A) (body : A -> S -> M W S) (s : S)
    : M W S :=
  match xs with
  | [] => ret s
  | x :: xs' => s' <- body x s ;; for_each xs' body s'
  end.

(** ** The graph builder *)

Inductive LogRecord :=
| Info_entities (entities : list str)
| Error_building (e : exn).

(** The graph [G] under construction and what [LOGGER] received. *)
Record World := mkWorld { graph : Graph; log : list LogRecord }.

Definition update_graph (f : Graph -> Graph) : M World unit :=
  fun w => (mkWorld (f (graph w)) (log w), Ok tt).

Definition logger (r : LogRecord) : M World unit :=
  fun w => (mkWorld (graph w) (log w ++ [r]), Ok tt).

(** The variables of the loop over one summary's lines. *)
Record Locals := mkLocals {
  entities_section : bool;
  relationships_section : bool;
  entities : list str
}.

Definition is_entities_header (line : str) : bool :=
  startswith line (lit "### Entities:")
  || startswith line (lit "**Entities:**")
  || startswith line (lit "Entities:").

Definition is_relationships_header (line : str) : bool :=
  startswith line (lit "### Relationships:")
  || startswith line (lit "**Relationships:**")
  || startswith line (lit "Relationships:").

(** The entities branch: [line[1]] is read whenever [line[0]] is a digit,
    also on a line of one character. *)
Definition entity_line (line : str) (l : Locals) : M World Locals :=
  c0 <- lift (py_index line 0) ;;
  numbered <- (if isdigit c0
               then c1 <- lift (py_index line 1) ;;
                    ret (Ascii.eqb c1 "."%char)
               else ret false) ;;
  line <- (if numbered : bool
           then rest <- lift (py_index (split1 line (lit ".")) 1) ;;
                ret (strip rest)
           else ret line) ;;
  let entity := strip line in
  let entity := replace entity (lit "**") [] in
  update_graph (fun G => add_node G entity) ;;;
  ret (mkLocals (entities_section l) (relationships_section l)
                (entities l ++ [entity])).

(** The relationships branch. *)
Definition relationship_line (line : str) (l : Locals) : M World Locals :=
  let parts := split line arrow in
  if (2 <=? len parts)%Z then
    first <- lift (py_index parts 0) ;;
    last <- lift (py_index parts (-1)) ;;
    let source := strip first in
    let target := strip last in
    let relation := strip (join (lit " -> ") (py_slice parts 1 (-1))) in
    update_graph (fun G => add_edge G source target relation) ;;;
    ret l
  else ret l.

(** The body of [for line in lines]. *)
Definition line_body (line : str) (l : Locals) : M World Locals :=
  if is_entities_header line then
    ret (mkLocals true false (entities l))
  else if is_relationships_header line then
    ret (mkLocals false true (entities l))
  else if entities_section l && truthy (strip line) then
    entity_line line l
  else if relationships_section l && truthy (strip line) then
    relationship_line line l
  else ret l.

(** The body of [for summary in summaries]. *)
Definition summary_body (summary : str) (_ : unit) : M World unit :=
  let lines := split summary newline in
  let l := mkLocals false false [] in
  logger (Info_entities (entities l)) ;;;
  for_each lines line_body l ;;;
  ret tt.

(** The [try] encloses the whole loop over the summaries. *)
Definition _build_graph_from_summaries (summaries : list str)
    : M World Graph :=
  update_graph (fun _ => empty_graph) ;;;
  try_except
    (for_each summaries summary_body tt)
    (fun e => logger (Error_building e)) ;;;
  fun w => (w, Ok (graph w)).

Definition fresh : World := mkWorld empty_graph [].

(** The graph returned on a fresh logger, and the log of the call. *)
Definition built_graph (summaries : list str) : Graph :=
  graph (fst (_build_graph_from_summaries summaries fresh)).

Definition built_log (summaries : list str) : list LogRecord :=
  log (fst (_build_graph_from_summaries summaries fresh)).

(** Parsing one summary on its own, from a given graph. *)
Definition parse_summary (summary : str) (G : Graph) : World * result unit :=
  summary_body summary tt (mkWorld G []).

(** ** The top-level run

    The collaborators are given by what their calls do: the constructor
    [GraphDatabase.driver], the stages run inside
    [_process_txts_and_update_neo4j], and [driver.close].  Here the stages
    are one call with one outcome, and [Info_success] stands for what they
    log when they return without an exception: the success record, or on a
    directory without text files the warning alone.  The stages themselves,
    with their own log, are [Stages._process_txts_and_update_neo4j]. *)

Record Collaborators := mkCollaborators {
  GraphDatabase_driver : result unit;
  stages : result unit;
  driver_close : result unit
}.

Inductive Event :=
| Info_starting
| Info_connected
| Info_processing
| Info_total_time
| Info_success
| Error_failed (e : exn)
| Error_processing (e : exn)
| Call_driver
| Call_stages
| Call_close.

(** The local variable [driver], unbound until the constructor returns, and
    the calls and log records so far. *)
Record Frame := mkFrame { driver : option unit; trace : list Event }.

Definition emit (ev : Event) : M Frame unit :=
  fun f => (mkFrame (driver f) (trace f ++ [ev]), Ok tt).

Definition assign_driver (d : unit) : M Frame unit :=
  fun f => (mkFrame (Some d) (trace f), Ok tt).

(** Reading the local [driver]: [UnboundLocalError] before its assignment. *)
Definition read_driver : M Frame unit :=
  fun f =>
    match driver f with
    | Some d => (f, Ok d)
    | None => (f, Raise UnboundLocalError)
    end.

Definition _process_txts_and_update_neo4j (c : Collaborators)
    : M Frame unit :=
  try_except
    (emit Call_stages ;;;
     lift (stages c) ;;;
     emit Info_success)
    (fun e => emit (Error_processing e)).

Definition process_txts_and_update_neo4j (c : Collaborators)
    : M Frame unit :=
  emit Info_starting ;;;
  try_finally
    (try_except
       (emit Call_driver ;;;
        d <- lift (GraphDatabase_driver c) ;;
        assign_driver d ;;;
        emit Info_connected ;;;
        emit Info_processing ;;;
        _process_txts_and_update_neo4j c ;;;
        emit Info_total_time)
       (fun e => emit (Error_failed e)))
    (read_driver ;;;
     emit Call_close ;;;
     lift (driver_close c)).

Definition entry : Frame := mkFrame None [].

(** The release was performed: [driver.close] was called. *)
Definition released (f : Frame) : bool :=
  existsb (fun ev => match ev with Call_close => true | _ => false end)
          (trace f).

(** ** The completion service

    [openai.chat.completions.create(model="gpt-4", messages=[system, user])]
    followed by [response.choices[0].message.content]: the text obtained, or
    the exception of the call or of the indexing.  The answer may depend on
    the requests made before. *)

Definition Completion : Type := list (str * str) -> str -> str -> result str.

Inductive ServiceRecord :=
| Info_element_list (elements : list str)
| Error_extracting (index : nat) (e : exn)
| Info_summary_list (summaries : list str)
| Error_summarizing (index : nat) (e : exn).

(** The requests sent, as (system content, user content), and what
    [LOGGER] received from the two stages. *)
Record Service := mkService {
  requests : list (str * str);
  service_log : list ServiceRecord
}.

Definition chat (complete : Completion) (system user : str) : M Service str :=
  fun w =>
    (mkService (requests w ++ [(system, user)]) (service_log w),
     complete (requests w) system user).

Definition service_logger (r : ServiceRecord) : M Service unit :=
  fun w => (mkService (requests w) (service_log w ++ [r]), Ok tt).

(** [enumerate(xs)] *)
Definition enumerate {A} (xs : list A) : list (nat * A) :=
  combine (seq 0 (length xs)) xs.

Definition extract_system : str :=
  lit "Extract entities and relationships from the following text.".

Definition summarize_system : str :=
  lit "Summarize the following entities and relationships in a structured format. Use '->' to represent relationships, after the 'Relationships:' word.".

(** The [try] is inside the loop: a chunk whose request fails is logged with
    its index and left out. *)
Definition _extract_elements_from_chunks (complete : Completion)
    (chunks : list str) : M Service (list str) :=
  for_each (enumerate chunks)
    (fun ic elements =>
       try_except
         (entities_and_relations <- chat complete extract_system (snd ic) ;;
          let elements := elements ++ [entities_and_relations] in
          service_logger (Info_element_list elements) ;;;
          ret elements)
         (fun e =>
            service_logger (Error_extracting (fst ic) e) ;;;
            ret elements))
    [].

Definition _summarize_elements (complete : Completion)
    (elements : list str) : M Service (list str) :=
  for_each (enumerate elements)
    (fun ie summaries =>
       try_except
         (summary <- chat complete summarize_system (snd ie) ;;
          let summaries := summaries ++ [summary] in
          service_logger (Info_summary_list summaries) ;;;
          ret summaries)
         (fun e =>
            service_logger (Error_summarizing (fst ie) e) ;;;
            ret summaries))
    [].

(** The answers to the items asked in turn, failures left out, and the
    failures with the position of their item. *)
Fixpoint answers (complete : Completion) (system : str)
    (before : list (str * str)) (items : list str) : list str :=
  match items with
  | [] => []
  | x :: xs =>
      let rest := answers complete system (before ++ [(system, x)]) xs in
      match complete before system x with
      | Ok r => r :: rest
      | Raise _ => rest
      end
  end.

Fixpoint failures (complete : Completion) (system : str)
    (before : list (str * str)) (i : nat) (items : list str)
    : list (nat * exn) :=
  match items with
  | [] => []
  | x :: xs =>
      let rest :=
        failures complete system (before ++ [(system, x)]) (S i) xs in
      match complete before system x with
      | Ok _ => rest
      | Raise e => (i, e) :: rest
      end
  end.

Definition is_error_record (r : ServiceRecord) : bool :=
  match r with
  | Error_extracting _ _ | Error_summarizing _ _ => true
  | _ => false
  end.

(** ** The graph database

    The two statements sent with [session.run], with their parameters. *)

Inductive Query :=
| Merge_entity (name : str)
| Merge_relation (source target label : str).

(** The driver, by what its calls do: [driver.session(database="neo4j")],
    [session.run] given the statements run before, and the exit of the
    [with] block, which closes the session. *)
Record Neo4jDriver := mkNeo4jDriver {
  session_outcome : result unit;
  run_outcome : list Query -> Query -> result unit;
  exit_outcome : result unit
}.

Inductive DbEvent :=
| Session_opened
| Query_run (q : Query)
| Session_closed
| Error_updating (e : exn).

Definition queries_of (t : list DbEvent) : list Query :=
  flat_map (fun ev => match ev with Query_run q => [q] | _ => [] end) t.

Definition db_emit (ev : DbEvent) : M (list DbEvent) unit :=
  fun t => (t ++ [ev], Ok tt).

(** [session.run(...)]: the statement is sent, then succeeds or raises. *)
Definition session_run (d : Neo4jDriver) (q : Query) : M (list DbEvent) unit :=
  fun t => (t ++ [Query_run q], run_outcome d (queries_of t) q).

Definition relation_query (edge : str * str * str) : Query :=
  Merge_relation (fst (fst edge)) (snd (fst edge)) (snd edge).

(** The [try] encloses the [with] block and both loops. *)
Definition _update_neo4j_with_graph (d : Neo4jDriver) (G : Graph)
    : M (list DbEvent) unit :=
  try_except
    (lift (session_outcome d) ;;;
     db_emit Session_opened ;;;
     try_finally
       (for_each (nodes G)
          (fun node _ => session_run d (Merge_entity node)) tt ;;;
        for_each (edges G)
          (fun edge _ => session_run d (relation_query edge)) tt)
       (db_emit Session_closed ;;;
        lift (exit_outcome d)))
    (fun e => db_emit (Error_updating e)).

(** The statements of a graph, in the order the loops send them. *)
Definition plan (G : Graph) : list Query :=
  map Merge_entity (nodes G) ++ map relation_query (edges G).

(** Every statement of the list succeeds when sent in turn after [before]. *)
Fixpoint all_succeed (d : Neo4jDriver) (before : list Query)
    (qs : list Query) : Prop :=
  match qs with
  | [] => True
  | q :: qs' =>
      run_outcome d before q = Ok tt /\ all_succeed d (before ++ [q]) qs'
  end.

(** ** The stages run on a directory *)

(** [s.endswith(suffix)] *)
Definition endswith (s suffix : str) : bool :=
  startswith (rev s) (rev suffix).

(** [os.path.join(a, b)] of [posixpath]. *)
Definition os_path_join (a b : str) : str :=
  if startswith b (lit "/") then b
  else if negb (truthy a) || endswith a (lit "/") then a ++ b
  else a ++ lit "/" ++ b.

(** The directory, by what its calls do: [os.listdir] and, for a path,
    [open] with [file.read]. *)
Record FileSystem := mkFileSystem {
  listdir : result (list str);
  read_text : str -> result str
}.

Inductive StageRecord :=
| Warning_no_text_files
| Info_reading (file_path : str)
| Info_updated
| Error_in_stages (e : exn).

(** What a run of the stages touches: the paths opened, the completion
    service, the database, and the three logs. *)
Record Run := mkRun {
  opened : list str;
  service : Service;
  database : list DbEvent;
  builder_log : list LogRecord;
  stage_log : list StageRecord
}.

Definition stage_logger (r : StageRecord) : M Run unit :=
  fun u =>
    (mkRun (opened u) (service u) (database u) (builder_log u)
           (stage_log u ++ [r]),
     Ok tt).

Definition open_and_read (fs : FileSystem) (file_path : str) : M Run str :=
  fun u =>
    (mkRun (opened u ++ [file_path]) (service u) (database u)
           (builder_log u) (stage_log u),
     read_text fs file_path).

Definition on_service {A} (m : M Service A) : M Run A :=
  fun u =>
    let (s, a) := m (service u) in
    (mkRun (opened u) s (database u) (builder_log u) (stage_log u), a).

Definition on_database {A} (m : M (list DbEvent) A) : M Run A :=
  fun u =>
    let (t, a) := m (database u) in
    (mkRun (opened u) (service u) t (builder_log u) (stage_log u), a).

(** The builder works on a graph of its own. *)
Definition on_builder {A} (m : M World A) : M Run A :=
  fun u =>
    let (w, a) := m (mkWorld empty_graph (builder_log u)) in
    (mkRun (opened u) (service u) (database u) (log w) (stage_log u), a).

Module Stages.

(** [_process_txts_and_update_neo4j], with the directory path, the file
    system, the completion service and the driver it works with. *)
Definition _process_txts_and_update_neo4j (TXT_DIRECTORY_PATH : str)
    (fs : FileSystem) (complete : Completion) (d : Neo4jDriver)
    : M Run unit :=
  try_except
    (names <- lift (listdir fs) ;;
     let txt_files := filter (fun f => endswith f (lit ".txt")) names in
     match txt_files with
     | [] => stage_logger Warning_no_text_files
     | _ :: _ =>
         documents <-
           for_each txt_files
             (fun txt_file documents =>
                let file_path := os_path_join TXT_DIRECTORY_PATH txt_file in
                stage_logger (Info_reading file_path) ;;;
                text <- open_and_read fs file_path ;;
                ret (documents ++ [text]))
             [] ;;
         chunks <- lift (_split_documents_into_chunks documents
                           default_chunk_size default_overlap_size) ;;
         elements <-
           on_service (_extract_elements_from_chunks complete chunks) ;;
         summaries <- on_service (_summarize_elements complete elements) ;;
         G <- on_builder (_build_graph_from_summaries summaries) ;;
         on_database (_update_neo4j_with_graph d G) ;;;
         stage_logger Info_updated
     end)
    (fun e => stage_logger (Error_in_stages e)).

End Stages.

Definition start : Run := mkRun [] (mkService [] []) [] [] [].

(** A service whose failures are all of class [Exception]. *)
Definition dependable (complete : Completion) : Prop :=
  forall before system user e,
    complete before system user = Raise e -> is_Exception e = true.

(** A driver whose failures are all of class [Exception]. *)
Definition sound_driver (d : Neo4jDriver) : Prop :=
  (forall e, session_outcome d = Raise e -> is_Exception e = true)
  /\ (forall before q e,
        run_outcome d before q = Raise e -> is_Exception e = true)
  /\ (forall e, exit_outcome d = Raise e -> is_Exception e = true).

(** Sending the statements of a list in turn. *)
Definition run_in_turn (d : Neo4jDriver) (qs : list Query)
    : M (list DbEvent) unit :=
  for_each qs (fun q _ => session_run d q) tt.

(** The body of the loop that reads the files, as in the stages. *)
Definition read_body (TXT_DIRECTORY_PATH : str) (fs : FileSystem)
    (txt_file : str) (documents : list str) : M Run (list str) :=
  let file_path := os_path_join TXT_DIRECTORY_PATH txt_file in
  stage_logger (Info_reading file_path) ;;;
  text <- open_and_read fs file_path ;;
  ret (documents ++ [text]).

(** The names of a listing that are taken as text files. *)
Definition text_files (names : list str) : list str :=
  filter (fun f => endswith f (lit ".txt")) names.

(** The [k]-th window of length [l] at stride [s], on naturals. *)
Definition window (document : str) (l s k : nat) : str :=
  firstn l (skipn (k * s) document).

(** The representation invariant of a graph: no key twice, in [_adj] and in
    each neighbour dict, and every edge stored from both endpoints with one
    label. *)
Definition wf (G : Graph) : Prop :=
  NoDup (nodes G)
  /\ (forall u d, dict_get (_adj G) u = Some d -> NoDup (keys d))
  /\ (forall u v lbl,
        get_edge_data G u v = Some lbl -> get_edge_data G v u = Some lbl).

(** A state property kept by a computation, whatever its outcome. *)
Definition preserves {W A} (P : W -> Prop) (m : M W A) : Prop :=
  forall w, P w -> P (fst (m w)).

(** Two runs of one computation from related states: same outcome, related
    final states. *)
Definition simulates {W A} (R : W -> W -> Prop) (m : M W A) : Prop :=
  forall wa wb, R wa wb ->
    R (fst (m wa)) (fst (m wb)) /\ snd (m wa) = snd (m wb).

Definition wf_world (w : World) : Prop := wf (graph w).

(** Whatever label the first world has on the pair, the second has it too. *)
Definition label_carried (u v : str) (wa wb : World) : Prop :=
  forall lbl, get_edge_data (graph wa) u v = Some lbl ->
              get_edge_data (graph wb) u v = Some lbl.

(** A computation whose exceptions are all caught by [except Exception]. *)
Definition catchable {W A} (m : M W A) : Prop :=
  forall w e, snd (m w) = Raise e -> is_Exception e = true.

(** ** Texts used below *)

(** A text given by its lines. *)
Definition text (ls : list string) : str := join newline (map lit ls).

Definition summary_alice_bob : str :=
  text ["Entities:"; "1. Alice"; "2. Bob"; "Relationships:";
        "Alice->knows->Bob"]%string.

(** A numbered entity line cut after its digit. *)
Definition summary_cut : str := text ["Entities:"; "1"]%string.

Definition summary_bob : str := text ["Entities:"; "Bob"]%string.

Definition summary_both_ways : str :=
  text ["Relationships:"; "Alice->likes->Bob"; "Bob->fears->Alice"]%string.

Definition summary_target_first : str :=
  text ["Entities:"; "Bob"; "Alice"; "Relationships:";
        "Alice->knows->Bob"]%string.

Definition summary_x : str := text ["Relationships:"; "A->x->B"]%string.

(** The same relation, followed by an entity line cut after its digit. *)
Definition summary_x_cut : str :=
  text ["Relationships:"; "A->x->B"; "Entities:"; "1"]%string.
Definition summary_y : str := text ["Relationships:"; "A->y->B"]%string.

(** The loop variables inside a relationships section. *)
Definition in_relationships : Locals := mkLocals false true [].

(** The text of an entity line that is kept as the name, before trimming: a
    line that opens with one digit and a full stop loses them. *)
Definition entity_text (line : str) : str :=
  match line with
  | d :: c :: rest =>
      if isdigit d && Ascii.eqb c "."%char then rest else line
  | _ => line
  end.

(** A line made of one digit and nothing else. *)
Definition lone_digit (line : str) : bool :=
  match line with
  | [c] => isdigit c
  | _ => false
  end.

(** The graph after the summaries, each parsed from the graph left by the
    one before. *)
Definition parse_in_turn (summaries : list str) (G : Graph) : Graph :=
  fold_left (fun G summary => graph (fst (parse_summary summary G)))
            summaries G.

(** The second graph keeps what the first has: its nodes, at their places,
    and its stored pairs (a label may differ). *)
Definition extends (G G' : Graph) : Prop :=
  (exists extra, nodes G' = nodes G ++ extra)
  /\ (forall u v, get_edge_data G u v <> None ->
                  get_edge_data G' u v <> None).

(** Collaborators used below: a directory with one text file, a service
    that answers each of the two stages with a fixed text, a service whose
    second request fails, and a database that accepts everything. *)
Definition one_text_file : FileSystem :=
  mkFileSystem (Ok [lit "a.txt"; lit "b.md"])
               (fun _ => Ok (lit "Alice knows Bob.")).

Definition unreadable_second : FileSystem :=
  mkFileSystem (Ok [lit "a.txt"; lit "b.md"; lit "c.txt"; lit "d.txt"])
               (fun file_path =>
                  if endswith file_path (lit "c.txt") then Raise ValueError
                  else Ok (lit "Alice knows Bob.")).

Definition fixed_answers : Completion :=
  fun _ system _ =>
    if startswith system (lit "Extract") then Ok (lit "Alice knows Bob")
    else Ok summary_alice_bob.

Definition second_request_fails : Completion :=
  fun before _ user =>
    match before with
    | [_] => Raise ValueError
    | _ => Ok user
    end.

Definition accepting : Neo4jDriver :=
  mkNeo4jDriver (Ok tt) (fun _ _ => Ok tt) (Ok tt).

(* ================================================================== *)
(** * Properties *)

(** ** Chunker *)

(** Slice bounds *)

Lemma adjust_index_nonneg (m i : Z) :
  (0 <= i)%Z -> (0 <= m)%Z -> adjust_index m i = Z.min m i.
Proof.
  intros Hi Hm. unfold adjust_index.
  destruct (Z.ltb_spec i 0); [lia|].
  destruct (Z.ltb_spec i 0); [lia|].
  destruct (Z.ltb_spec m i); lia.
Qed.

Lemma adjust_index_neg (m i : Z) :
  (i < 0)%Z -> (0 <= i + m)%Z -> adjust_index m i = (i + m)%Z.
Proof.
  intros Hi Hm. unfold adjust_index.
  destruct (Z.ltb_spec i 0); [|lia].
  destruct (Z.ltb_spec (i + m) 0); [lia|].
  destruct (Z.ltb_spec m (i + m)); lia.
Qed.

Section Chunker.

Variable document : str.
Variables L O : Z.
Hypothesis HO : (0 < O)%Z.
Hypothesis HL : (O < L)%Z.

Let l := Z.to_nat L.
Let o := Z.to_nat O.
Let s := Z.to_nat (L - O).
Let N := length document.
Let n := Z.to_nat (range_len 0 (len document) (L - O)).

Lemma chunk_loop_map (d : str) (size : Z) (idx : list Z) (chunks : list str) :
  chunk_loop d size idx chunks =
  chunks ++ map (fun i => py_slice d i (i + size)%Z) idx.
Proof.
  revert chunks; induction idx as [|i idx IH]; intros chunks; simpl.
  - now rewrite app_nil_r.
  - rewrite IH, <- app_assoc. reflexivity.
Qed.

Lemma slice_window (i : Z) :
  (0 <= i <= len document)%Z ->
  py_slice document i (i + L)%Z = firstn l (skipn (Z.to_nat i) document).
Proof.
  intros Hi. unfold py_slice.
  rewrite !adjust_index_nonneg by (unfold len in *; lia).
  replace (Z.min (len document) i) with i by lia.
  unfold len in *. destruct (Z.le_ge_cases (i + L) (Z.of_nat (length document))).
  - f_equal. subst l; lia.
  - rewrite (firstn_all2 (n := l)) by (rewrite length_skipn; subst l; lia).
    apply firstn_all2. rewrite length_skipn. lia.
Qed.

Lemma count_spec :
  (forall k, k < n -> k * s < N) /\ N <= n * s.
Proof.
  subst n s N. unfold range_len, len.
  set (step := (L - O)%Z). assert (Hs : (0 < step)%Z) by (subst step; lia).
  destruct (Z.ltb_spec 0 step); [|lia].
  set (Nz := Z.of_nat (length document)).
  destruct (Z.ltb_spec 0 Nz).
  - pose proof (Z.div_mod (Nz - 0 - 1) step ltac:(lia)) as E.
    pose proof (Z.mod_pos_bound (Nz - 0 - 1) step Hs) as B.
    set (q := ((Nz - 0 - 1) / step)%Z) in *.
    assert (0 <= q)%Z by (subst q; apply Z.div_pos; lia).
    split.
    + intros k Hk. apply Nat2Z.inj_lt. rewrite Nat2Z.inj_mul, Z2Nat.id by lia.
      fold Nz. assert (Z.of_nat k <= q)%Z by lia. nia.
    + apply Nat2Z.inj_le. rewrite Nat2Z.inj_mul, !Z2Nat.id by lia.
      fold Nz. nia.
  - split; [intros k Hk; simpl in Hk; lia|]. subst Nz. simpl. lia.
Qed.

Lemma split_single :
  _split_documents_into_chunks [document] L O
  = Ok (map (window document l s) (seq 0 n)).
Proof.
  unfold _split_documents_into_chunks, documents_loop, py_range.
  destruct (Z.eqb_spec (L - O) 0); [lia|].
  rewrite chunk_loop_map, map_map. simpl. f_equal. fold n.
  apply map_ext_in. intros k Hk. apply in_seq in Hk.
  destruct count_spec as [Hlt _]. specialize (Hlt k ltac:(lia)).
  unfold window. rewrite slice_window.
  - do 2 f_equal. subst s. rewrite Z2Nat.inj_mul, Nat2Z.id; lia.
  - unfold len. fold N. subst s.
    assert (Z.of_nat (k * Z.to_nat (L - O)) < Z.of_nat N)%Z by lia.
    rewrite Nat2Z.inj_mul, Z2Nat.id in *; lia.
Qed.

Lemma sizes : l = s + o /\ 0 < s /\ 0 < o.
Proof. subst l s o. lia. Qed.

Lemma window_length (k : nat) :
  length (window document l s k) = Nat.min l (N - k * s).
Proof. unfold window. now rewrite length_firstn, length_skipn. Qed.

Lemma window_bound (k : nat) : (len (window document l s k) <= L)%Z.
Proof.
  unfold len. rewrite window_length. subst l. lia.
Qed.

(** The shared part of two consecutive windows is the start of the later
    one, read in the document. *)
Lemma window_overlap (k : nat) :
  S k * s < N ->
  let c1 := window document l s k in
  let c2 := window document l s (S k) in
  let m := Nat.min o (length c2) in
  lastn m c1 = firstn m c2 /\ length (lastn m c1) = m.
Proof.
  intros Hk c1 c2 m. destruct sizes as (Hl & Hs & Ho).
  assert (Hc1 : length c1 = Nat.min l (N - k * s)) by apply window_length.
  assert (Hc2 : length c2 = Nat.min l (N - S k * s)) by apply window_length.
  assert (Hm : length c1 - m = s) by (subst m; simpl in *; nia).
  assert (E : lastn m c1 = firstn m c2).
  { unfold lastn. rewrite Hm. subst c1 c2. unfold window.
    rewrite skipn_firstn_comm, skipn_skipn, firstn_firstn.
    replace (s + k * s) with (S k * s) by (simpl; lia).
    replace (l - s) with o by lia.
    destruct (Nat.le_ge_cases o (N - S k * s)).
    - f_equal. subst m. lia.
    - rewrite !firstn_all2; trivial; rewrite length_skipn; fold N; subst m; lia. }
  split; [exact E|]. rewrite E, length_firstn. subst m. lia.
Qed.

Lemma non_overlapping_windows (n' a : nat) :
  a * s < N -> N <= (a + S n') * s ->
  (forall k, k < a + S n' -> k * s < N) ->
  non_overlapping s (map (window document l s) (seq a (S n')))
  = skipn (a * s) document.
Proof.
  destruct sizes as (Hl & Hs & Ho).
  revert a; induction n' as [|n' IH]; intros a Ha Hcov Hin.
  - simpl. unfold window. apply firstn_all2. rewrite length_skipn. fold N. nia.
  - change (seq a (S (S n'))) with (a :: seq (S a) (S n')).
    rewrite map_cons.
    change (non_overlapping s (?c :: map ?f (seq ?b (S ?q))))
      with (firstn s c ++ non_overlapping s (map f (seq b (S q)))).
    rewrite IH.
    + unfold window. rewrite firstn_firstn.
      replace (Nat.min s l) with s by lia.
      replace (S a * s) with (s + a * s) by (simpl; lia).
      rewrite <- skipn_skipn. apply firstn_skipn.
    + apply Hin. lia.
    + replace (S a + S n') with (a + S (S n')) by lia. exact Hcov.
    + intros k Hk. apply Hin. lia.
Qed.

Lemma windows_reconstruct :
  non_overlapping s (map (window document l s) (seq 0 n)) = document.
Proof.
  destruct count_spec as [Hlt Hcov]. destruct n as [|n'] eqn:En.
  - simpl in *. symmetry. apply length_zero_iff_nil. fold N. lia.
  - rewrite non_overlapping_windows.
    + reflexivity.
    + apply (Hlt 0). lia.
    + exact Hcov.
    + intros k Hk. apply Hlt. lia.
Qed.

(** C4. For a document and parameters [0 < O < L], chunking succeeds; every
    chunk has at most [L] characters; the last [min(O, length of the later
    chunk)] characters of a chunk are the first ones of the chunk after it;
    and the first [L - O] characters of every chunk but the last, followed by
    the whole last chunk, give the document back. *)
Theorem chunker_windows :
  exists chunks,
    _split_documents_into_chunks [document] L O = Ok chunks /\
    Forall (fun c => (len c <= L)%Z) chunks /\
    (forall k c1 c2,
        nth_error chunks k = Some c1 ->
        nth_error chunks (S k) = Some c2 ->
        let m := Nat.min (Z.to_nat O) (length c2) in
        lastn m c1 = firstn m c2 /\ length (lastn m c1) = m) /\
    non_overlapping (Z.to_nat (L - O)) chunks = document.
Proof.
  exists (map (window document l s) (seq 0 n)).
  split; [apply split_single|]. split; [|split].
  - apply Forall_forall. intros c Hc. apply in_map_iff in Hc.
    destruct Hc as (k & <- & _). apply window_bound.
  - intros k c1 c2 H1 H2. rewrite nth_error_map, nth_error_seq in H1, H2.
    destruct (Nat.ltb_spec k n); [|discriminate].
    destruct (Nat.ltb_spec (S k) n); [|discriminate].
    simpl in H1, H2. injection H1 as <-. injection H2 as <-.
    apply window_overlap. apply count_spec. lia.
  - apply windows_reconstruct.
Qed.

End Chunker.

(** ** Dictionaries *)

Lemma str_eqb_spec (a b : str) : reflect (a = b) (str_eqb a b).
Proof.
  revert b; induction a as [|x a IH]; intros [|y b]; simpl;
    try (constructor; congruence).
  destruct (Ascii.eqb_spec x y) as [->|Hxy]; simpl.
  - destruct (IH b) as [->|Hab]; constructor; congruence.
  - constructor; congruence.
Qed.

Lemma str_eqb_refl (a : str) : str_eqb a a = true.
Proof. now destruct (str_eqb_spec a a). Qed.

Lemma str_eqb_sym (a b : str) : str_eqb a b = str_eqb b a.
Proof.
  destruct (str_eqb_spec a b), (str_eqb_spec b a); congruence.
Qed.

Section Dict.

Context {V : Type}.
Implicit Types (d : dict V) (k : str) (v : V).

Lemma dict_get_set d k v k' :
  dict_get (dict_set d k v) k'
  = if str_eqb k k' then Some v else dict_get d k'.
Proof.
  induction d as [|[k0 v0] d IH]; simpl.
  - destruct (str_eqb k k'); reflexivity.
  - destruct (str_eqb_spec k0 k) as [->|Hk]; simpl.
    + destruct (str_eqb k k'); reflexivity.
    + rewrite IH. destruct (str_eqb_spec k0 k') as [->|]; trivial.
      destruct (str_eqb_spec k k'); congruence.
Qed.

Lemma dict_get_In d k v : dict_get d k = Some v -> In (k, v) d.
Proof.
  induction d as [|[k0 v0] d IH]; simpl; [discriminate|].
  destruct (str_eqb_spec k0 k) as [->|]; intros H.
  - injection H as ->. now left.
  - right. auto.
Qed.

Lemma dict_get_keys d k : dict_get d k <> None <-> In k (keys d).
Proof.
  induction d as [|[k0 v0] d IH]; simpl; [tauto|].
  destruct (str_eqb_spec k0 k) as [->|]; [intuition congruence|].
  rewrite IH. intuition congruence.
Qed.

Lemma dict_contains_keys d k : dict_contains d k = true <-> In k (keys d).
Proof.
  rewrite <- dict_get_keys. unfold dict_contains.
  destruct (dict_get d k); intuition congruence.
Qed.

Lemma In_dict_get d k v :
  NoDup (keys d) -> In (k, v) d -> dict_get d k = Some v.
Proof.
  induction d as [|[k0 v0] d IH]; simpl; [tauto|].
  intros Hnd [E|Hin]; inversion Hnd; subst.
  - injection E as -> ->. now rewrite str_eqb_refl.
  - destruct (str_eqb_spec k0 k) as [->|]; auto.
    exfalso. apply H1. change k with (fst (k, v)). now apply in_map.
Qed.

Lemma keys_dict_set d k v :
  keys (dict_set d k v)
  = if dict_contains d k then keys d else keys d ++ [k].
Proof.
  unfold dict_contains.
  induction d as [|[k0 v0] d IH]; simpl; trivial.
  destruct (str_eqb_spec k0 k) as [->|]; simpl; trivial.
  rewrite IH. destruct (dict_get d k); reflexivity.
Qed.

Lemma NoDup_dict_set d k v : NoDup (keys d) -> NoDup (keys (dict_set d k v)).
Proof.
  intros Hnd. rewrite keys_dict_set.
  destruct (dict_contains d k) eqn:E; trivial.
  apply NoDup_app; repeat split; trivial.
  - constructor; [simpl; tauto | constructor].
  - intros x Hx [<-|[]]. apply dict_contains_keys in Hx. congruence.
Qed.

End Dict.

(** ** The graph operations *)

Lemma nbrs_of_ensure_node adj n k :
  nbrs_of (ensure_node adj n) k = nbrs_of adj k.
Proof.
  unfold nbrs_of, ensure_node, dict_contains.
  destruct (dict_get adj n) eqn:E; trivial.
  rewrite dict_get_set. destruct (str_eqb_spec n k) as [->|]; trivial.
  now rewrite E.
Qed.

Lemma nbrs_of_dict_set adj k d k' :
  nbrs_of (dict_set adj k d) k' = if str_eqb k k' then d else nbrs_of adj k'.
Proof.
  unfold nbrs_of. rewrite dict_get_set. now destruct (str_eqb k k').
Qed.

Lemma dict_get_ensure_node adj n k :
  dict_get (ensure_node adj n) k
  = match dict_get adj k with
    | Some d => Some d
    | None => if str_eqb n k then Some [] else None
    end.
Proof.
  unfold ensure_node, dict_contains.
  destruct (dict_get adj n) eqn:E.
  - destruct (dict_get adj k) eqn:E'; trivial.
    destruct (str_eqb_spec n k); congruence.
  - rewrite dict_get_set. destruct (str_eqb_spec n k) as [->|].
    + now rewrite E.
    + now destruct (dict_get adj k).
Qed.

Lemma NoDup_ensure_node adj n :
  NoDup (keys adj) -> NoDup (keys (ensure_node adj n)).
Proof.
  intros H. unfold ensure_node. destruct (dict_contains adj n); trivial.
  now apply NoDup_dict_set.
Qed.

Lemma In_keys_ensure_node adj n k :
  In k (keys (ensure_node adj n)) <-> k = n \/ In k (keys adj).
Proof.
  rewrite <- !dict_get_keys, dict_get_ensure_node.
  destruct (dict_get adj k); [intuition congruence|].
  destruct (str_eqb_spec n k); intuition congruence.
Qed.

(** The neighbour dicts after [add_edge], from those before. *)
Lemma dict_get_add_edge G u v lbl x :
  dict_get (_adj (add_edge G u v lbl)) x
  = if str_eqb v x then
      Some (dict_set (if str_eqb u v
                      then dict_set (nbrs_of (_adj G) u) v lbl
                      else nbrs_of (_adj G) v) u lbl)
    else if str_eqb u x then Some (dict_set (nbrs_of (_adj G) u) v lbl)
    else dict_get (_adj G) x.
Proof.
  unfold add_edge. simpl. rewrite !dict_get_set.
  destruct (str_eqb_spec v x) as [->|Hv].
  - rewrite nbrs_of_dict_set, !nbrs_of_ensure_node.
    destruct (str_eqb u x); reflexivity.
  - rewrite !nbrs_of_ensure_node.
    destruct (str_eqb_spec u x) as [->|Hu]; trivial.
    rewrite !dict_get_ensure_node.
    destruct (dict_get (_adj G) x); trivial.
    destruct (str_eqb_spec u x), (str_eqb_spec v x); congruence.
Qed.

Lemma In_nodes_add_edge G u v lbl x :
  In x (nodes (add_edge G u v lbl)) <-> x = u \/ x = v \/ In x (nodes G).
Proof.
  unfold nodes. rewrite <- !dict_get_keys, dict_get_add_edge.
  destruct (str_eqb_spec v x); [intuition congruence|].
  destruct (str_eqb_spec u x); intuition congruence.
Qed.

Lemma In_nodes_add_node G n x :
  In x (nodes (add_node G n)) <-> x = n \/ In x (nodes G).
Proof. apply In_keys_ensure_node. Qed.

Lemma get_edge_data_add_node G n a b :
  get_edge_data (add_node G n) a b = get_edge_data G a b.
Proof.
  unfold get_edge_data, add_node. simpl. rewrite dict_get_ensure_node.
  destruct (dict_get (_adj G) a); trivial.
  destruct (str_eqb n a); reflexivity.
Qed.

Lemma get_edge_data_nbrs G a b :
  get_edge_data G a b = dict_get (nbrs_of (_adj G) a) b.
Proof.
  unfold get_edge_data, nbrs_of. now destruct (dict_get (_adj G) a).
Qed.

(** [add_edge] sets the label of the pair, in both directions, and touches
    no other pair. *)
Lemma get_edge_data_add_edge G u v lbl a b :
  get_edge_data (add_edge G u v lbl) a b
  = if (str_eqb u a && str_eqb v b) || (str_eqb v a && str_eqb u b)
    then Some lbl
    else get_edge_data G a b.
Proof.
  unfold get_edge_data at 1. rewrite dict_get_add_edge.
  destruct (str_eqb_spec v a) as [->|Hva].
  - rewrite dict_get_set. destruct (str_eqb_spec u b) as [->|Hub].
    + now rewrite orb_true_r.
    + rewrite andb_false_r, orb_false_r.
      destruct (str_eqb_spec u a) as [->|Hua]; simpl.
      * rewrite dict_get_set. destruct (str_eqb_spec a b); trivial.
        apply eq_sym, get_edge_data_nbrs.
      * apply eq_sym, get_edge_data_nbrs.
  - rewrite orb_false_r. destruct (str_eqb_spec u a) as [->|Hua]; simpl.
    + rewrite dict_get_set. destruct (str_eqb_spec v b); trivial.
      apply eq_sym, get_edge_data_nbrs.
    + reflexivity.
Qed.

Lemma wf_empty : wf empty_graph.
Proof.
  repeat split; simpl; try constructor; discriminate.
Qed.

Lemma wf_nbrs G u : wf G -> NoDup (keys (nbrs_of (_adj G) u)).
Proof.
  intros (_ & Hin & _). unfold nbrs_of.
  destruct (dict_get (_adj G) u) eqn:E; [eauto | constructor].
Qed.

Lemma wf_add_node G n : wf G -> wf (add_node G n).
Proof.
  intros (Hk & Hin & Hsym). repeat split.
  - now apply NoDup_ensure_node.
  - intros u d. unfold add_node; simpl. rewrite dict_get_ensure_node.
    destruct (dict_get (_adj G) u) eqn:E.
    + intros [= <-]. eauto.
    + destruct (str_eqb n u); intros [= <-]. constructor.
  - intros u v lbl. rewrite !get_edge_data_add_node. auto.
Qed.

Lemma wf_add_edge G u v lbl : wf G -> wf (add_edge G u v lbl).
Proof.
  intros HG. pose proof HG as (Hk & Hin & Hsym). repeat split.
  - unfold add_edge, nodes; simpl.
    do 2 apply NoDup_dict_set. do 2 apply NoDup_ensure_node. exact Hk.
  - intros x d. rewrite dict_get_add_edge.
    destruct (str_eqb v x); [|destruct (str_eqb u x)].
    + intros [= <-]. apply NoDup_dict_set.
      destruct (str_eqb u v); [apply NoDup_dict_set|]; now apply wf_nbrs.
    + intros [= <-]. apply NoDup_dict_set. now apply wf_nbrs.
    + eauto.
  - intros a b l'. rewrite !get_edge_data_add_edge.
    destruct (str_eqb u a), (str_eqb v b), (str_eqb v a), (str_eqb u b);
      simpl; auto.
Qed.

(** ** The edge view *)

Lemma mem_In (k : str) (l : list str) : mem k l = true <-> In k l.
Proof.
  unfold mem. rewrite existsb_exists. split.
  - intros (x & Hx & E). now destruct (str_eqb_spec k x); subst.
  - intros H. exists k. split; trivial. apply str_eqb_refl.
Qed.

Lemma mem_false (k : str) (l : list str) : mem k l = false <-> ~ In k l.
Proof.
  rewrite <- mem_In. destruct (mem k l); intuition congruence.
Qed.

Lemma NoDup_app_disjoint {A} (l1 l2 : list A) (a : A) :
  NoDup (l1 ++ l2) -> In a l1 -> ~ In a l2.
Proof.
  induction l1 as [|x l1 IH]; simpl; [tauto|].
  intros Hnd [->|Hin] Ha; inversion Hnd; subst.
  - apply H1. apply in_or_app. now right.
  - now apply IH.
Qed.

Lemma In_edges_go seen adj a b lbl :
  In (a, b, lbl) (edges_go seen adj) ->
  exists d, In (a, d) adj /\ In (b, lbl) d.
Proof.
  revert seen; induction adj as [|[n nbrs] adj IH]; intros seen; simpl;
    [tauto|].
  intros H. apply in_app_or in H as [H|H].
  - apply in_map_iff in H as ([b' l'] & E & H). simpl in E.
    injection E as -> -> ->. apply filter_In in H as [H _]. eauto.
  - apply IH in H as (d & Hd & Hb). eauto.
Qed.

(** Every entry of the edge view is a stored edge, and so are its two
    endpoints nodes. *)
Lemma edges_sound G a b lbl :
  wf G -> In (a, b, lbl) (edges G) ->
  get_edge_data G a b = Some lbl /\ In a (nodes G) /\ In b (nodes G).
Proof.
  intros (Hk & Hin & Hsym) H. apply In_edges_go in H as (d & Hd & Hb).
  assert (Ea : dict_get (_adj G) a = Some d) by now apply In_dict_get.
  assert (E : get_edge_data G a b = Some lbl).
  { unfold get_edge_data. rewrite Ea. apply In_dict_get; eauto. }
  split; trivial. split.
  - apply dict_get_keys. congruence.
  - apply Hsym in E. unfold get_edge_data in E. apply dict_get_keys.
    destruct (dict_get (_adj G) b); congruence.
Qed.

(** The entries that one node contributes towards a neighbour [b]. *)
Lemma filter_nbrs seen (nbrs : dict str) n b :
  NoDup (keys nbrs) ->
  filter (fun e : str * str * str => str_eqb (snd (fst e)) b)
    (map (fun e => (n, fst e, snd e))
         (filter (fun e => negb (mem (fst e) seen)) nbrs))
  = if mem b seen then []
    else match dict_get nbrs b with
         | Some lbl => [(n, b, lbl)]
         | None => []
         end.
Proof.
  induction nbrs as [|[k v] nbrs IH]; intros Hnd; simpl.
  - now destruct (mem b seen).
  - inversion Hnd as [|? ? Hk Hnd']; subst. specialize (IH Hnd').
    destruct (mem k seen) eqn:Ek; simpl.
    + rewrite IH. destruct (str_eqb_spec k b) as [->|]; trivial.
      now rewrite Ek.
    + destruct (str_eqb_spec k b) as [->|]; trivial.
      rewrite IH, Ek. f_equal.
      destruct (dict_get nbrs b) eqn:E; trivial.
      exfalso. apply Hk. apply dict_get_keys. congruence.
Qed.

Section EdgeView.

Variable full : dict (dict str).
Variables s t lbl : str.
Hypothesis Hwf : wf (mkGraph full).
Hypothesis Hst : get_edge_data (mkGraph full) s t = Some lbl.

Lemma edge_stored_back : get_edge_data (mkGraph full) t s = Some lbl.
Proof. destruct Hwf as (_ & _ & Hsym). auto. Qed.

Lemma endpoints_in_full : In s (keys full) /\ In t (keys full).
Proof.
  pose proof edge_stored_back as H. pose proof Hst as H'.
  unfold get_edge_data in H, H'. simpl in *.
  split; apply dict_get_keys.
  - destruct (dict_get full s); congruence.
  - destruct (dict_get full t); congruence.
Qed.

(** Walking the suffix [suf] of [_adj] with the keys of the prefix seen, the
    pair shows once when both endpoints are still ahead and not at all
    otherwise. *)
Lemma filter_joins_edges_go (suf pre : dict (dict str)) (seen : list str) :
  full = pre ++ suf ->
  (forall x, mem x seen = true <-> In x (keys pre)) ->
  (mem s (keys suf) && mem t (keys suf) = true ->
   exists a b, filter (joins s t) (edges_go seen suf) = [(a, b, lbl)])
  /\ (mem s (keys suf) && mem t (keys suf) = false ->
      filter (joins s t) (edges_go seen suf) = []).
Proof.
  destruct Hwf as (Hk & Hin & Hsym). simpl in Hk. unfold nodes in Hk.
  simpl in Hk.
  revert pre seen; induction suf as [|[n nbrs] suf' IH]; intros pre seen E Hseen.
  - simpl. split; [discriminate | trivial].
  - assert (E' : full = (pre ++ [(n, nbrs)]) ++ suf')
      by (rewrite <- app_assoc; exact E).
    specialize (IH (pre ++ [(n, nbrs)]) (n :: seen) E').
    assert (Hseen' : forall x, mem x (n :: seen) = true
                               <-> In x (keys (pre ++ [(n, nbrs)]))).
    { intros x. unfold keys. rewrite map_app, in_app_iff. simpl.
      rewrite <- Hseen. destruct (str_eqb_spec x n); subst; simpl;
        intuition congruence. }
    specialize (IH Hseen'). destruct IH as [IH1 IH0].
    assert (Hn : dict_get full n = Some nbrs).
    { apply In_dict_get; trivial. rewrite E. apply in_or_app. right. now left. }
    assert (Hnbrs : NoDup (keys nbrs)) by eauto.
    assert (Hdisj : forall x, In x (keys pre) -> ~ In x (keys ((n, nbrs) :: suf'))).
    { intros x. apply NoDup_app_disjoint. unfold keys in *.
      rewrite <- map_app, <- E. exact Hk. }
    assert (Hn' : ~ In n (keys suf')).
    { rewrite E in Hk. unfold keys in Hk. rewrite map_app in Hk.
      apply NoDup_app_remove_l in Hk. simpl in Hk. now inversion Hk. }
    assert (Hfull : forall x, In x (keys full) ->
                              ~ In x (keys ((n, nbrs) :: suf')) ->
                              mem x seen = true).
    { intros x Hx Hns. apply Hseen. rewrite E in Hx. unfold keys in *.
      rewrite map_app in Hx. apply in_app_or in Hx. tauto. }
    destruct endpoints_in_full as [Hs Ht].
    simpl edges_go. rewrite filter_app.
    set (En := map _ (filter _ nbrs)).
    destruct (str_eqb_spec n s) as [->|Hns].
    + (* the walk is at [s] *)
      assert (Hrest : filter (joins s t) (edges_go (s :: seen) suf') = []).
      { apply IH0. apply mem_false in Hn'. now rewrite Hn'. }
      rewrite Hrest, app_nil_r.
      assert (EEn : filter (joins s t) En
                    = filter (fun e => str_eqb (snd (fst e)) t) En).
      { apply filter_ext_in. intros [[a b] l'] Ha. subst En.
        apply in_map_iff in Ha as (x & [= <- <- <-] & _).
        unfold joins; simpl. rewrite str_eqb_refl. simpl.
        destruct (str_eqb_spec s t) as [<-|]; simpl;
          [now rewrite orb_diag | now rewrite orb_false_r]. }
      rewrite EEn. subst En. rewrite filter_nbrs by exact Hnbrs.
      assert (Hl : dict_get nbrs t = Some lbl).
      { pose proof Hst as H. unfold get_edge_data in H. simpl in H.
        now rewrite Hn in H. }
      rewrite Hl. simpl keys. simpl mem. rewrite str_eqb_refl. simpl.
      destruct (str_eqb t s || mem t (keys suf')) eqn:Et.
      * split; [|discriminate]. intros _.
        assert (mem t seen = false) as ->.
        { apply mem_false. rewrite <- mem_In, Hseen. intros Hp.
          apply (Hdisj _ Hp). simpl. apply orb_true_iff in Et as [Et|Et].
          - destruct (str_eqb_spec t s); auto; discriminate.
          - apply mem_In in Et. auto. }
        eauto.
      * split; [discriminate|]. intros _.
        rewrite Hfull; trivial. simpl. apply orb_false_iff in Et as [Et1 Et2].
        apply mem_false in Et2. destruct (str_eqb_spec t s); [discriminate|].
        intros [?|?]; auto.
    + destruct (str_eqb_spec n t) as [->|Hnt].
      * (* the walk is at [t], and [s] is another node *)
        assert (Hrest : filter (joins s t) (edges_go (t :: seen) suf') = []).
        { apply IH0. apply mem_false in Hn'. rewrite Hn'. apply andb_false_r. }
        rewrite Hrest, app_nil_r.
        assert (EEn : filter (joins s t) En
                      = filter (fun e => str_eqb (snd (fst e)) s) En).
        { apply filter_ext_in. intros [[a b] l'] Ha. subst En.
          apply in_map_iff in Ha as (x & [= <- <- <-] & _).
          unfold joins; simpl. rewrite str_eqb_refl. simpl.
          destruct (str_eqb_spec t s); [congruence|]. reflexivity. }
        rewrite EEn. subst En. rewrite filter_nbrs by exact Hnbrs.
        assert (Hl : dict_get nbrs s = Some lbl).
        { pose proof edge_stored_back as H. unfold get_edge_data in H. simpl in H.
          now rewrite Hn in H. }
        rewrite Hl. simpl keys. simpl mem. rewrite str_eqb_refl. simpl.
        rewrite andb_true_r.
        destruct (str_eqb s t || mem s (keys suf')) eqn:Es.
        -- split; [|discriminate]. intros _.
           assert (mem s seen = false) as ->.
           { apply mem_false. rewrite <- mem_In, Hseen. intros Hp.
             apply (Hdisj _ Hp). simpl. apply orb_true_iff in Es as [Es|Es].
             - destruct (str_eqb_spec s t); auto; discriminate.
             - apply mem_In in Es. auto. }
           eauto.
        -- split; [discriminate|]. intros _.
           rewrite Hfull; trivial. simpl. apply orb_false_iff in Es as [Es1 Es2].
           apply mem_false in Es2. intros [?|?]; auto.
      * (* the walk is at a third node *)
        assert (EEn : filter (joins s t) En = []).
        { rewrite <- (filter_ext_in (fun _ => false)).
          - clear. induction En; simpl; trivial.
          - intros [[a b] l'] Ha. subst En.
            apply in_map_iff in Ha as (x & [= <- <- <-] & _).
            unfold joins; simpl.
            destruct (str_eqb_spec n s), (str_eqb_spec n t);
              try congruence; reflexivity. }
        rewrite EEn. simpl app. simpl keys. simpl mem.
        destruct (str_eqb_spec s n); [congruence|].
        destruct (str_eqb_spec t n); [congruence|]. simpl.
        split; auto.
Qed.

(** In a well-formed graph an edge shows exactly once in the edge view,
    with its label. *)
Lemma edge_listed_once :
  exists a b, filter (joins s t) (edges_go [] full) = [(a, b, lbl)].
Proof.
  destruct (filter_joins_edges_go full [] []) as [H _]; trivial.
  - simpl. intros x. split; [discriminate | tauto].
  - apply H. destruct endpoints_in_full as [Hs Ht].
    apply mem_In in Hs, Ht. now rewrite Hs, Ht.
Qed.

End EdgeView.

(** The same on a graph: the one entry for a stored edge, which names its
    two endpoints in one order or the other. *)
Lemma edge_in_view (G : Graph) (u v lbl : str) :
  wf G -> get_edge_data G u v = Some lbl ->
  exists a b,
    filter (joins u v) (edges G) = [(a, b, lbl)]
    /\ In (a, b, lbl) (edges G)
    /\ ((a = u /\ b = v) \/ (a = v /\ b = u)).
Proof.
  intros Hwf Hl. unfold edges. destruct G as [adj].
  destruct (edge_listed_once adj u v lbl Hwf Hl) as (a & b & Hab).
  exists a, b. split; trivial.
  assert (Hin : In (a, b, lbl) (filter (joins u v) (edges_go [] adj)))
    by (rewrite Hab; now left).
  apply filter_In in Hin as [Hin Hj]. split; trivial.
  unfold joins in Hj. simpl in Hj.
  apply orb_true_iff in Hj as [Hj|Hj];
    apply andb_true_iff in Hj as [Ha Hb];
    destruct (str_eqb_spec a u), (str_eqb_spec b v),
             (str_eqb_spec a v), (str_eqb_spec b u);
    try discriminate; auto.
Qed.

(** ** Reasoning on computations *)

Section Preserves.

Context {W : Type} (P : W -> Prop).

Lemma preserves_ret {A} (a : A) : preserves P (ret a).
Proof. intros w H; exact H. Qed.

Lemma preserves_lift {A} (r : result A) : preserves P (lift r).
Proof. intros w H; exact H. Qed.

Lemma preserves_bind {A B} (m : M W A) (f : A -> M W B) :
  preserves P m -> (forall a, preserves P (f a)) -> preserves P (bind m f).
Proof.
  intros Hm Hf w Hw. unfold bind. specialize (Hm w Hw).
  destruct (m w) as [w' [a|e]]; simpl in *; trivial. now apply Hf.
Qed.

Lemma preserves_try_except {A} (m : M W A) (h : exn -> M W A) :
  preserves P m -> (forall e, preserves P (h e)) ->
  preserves P (try_except m h).
Proof.
  intros Hm Hh w Hw. unfold try_except. specialize (Hm w Hw).
  destruct (m w) as [w' [a|e]]; simpl in *; trivial.
  destruct (is_Exception e); simpl; trivial. now apply Hh.
Qed.

Lemma preserves_for_each {A S} (xs : list A) (body : A -> S -> M W S) :
  (forall x s, preserves P (body x s)) ->
  forall s, preserves P (for_each xs body s).
Proof.
  intros Hb. induction xs as [|x xs IH]; intros s; simpl.
  - apply preserves_ret.
  - apply preserves_bind; auto.
Qed.

End Preserves.

Section Simulates.

Context {W : Type} (R : W -> W -> Prop).

Lemma simulates_ret {A} (a : A) : simulates R (ret a).
Proof. intros wa wb H; split; trivial. Qed.

Lemma simulates_lift {A} (r : result A) : simulates R (lift r).
Proof. intros wa wb H; split; trivial. Qed.

Lemma simulates_bind {A B} (m : M W A) (f : A -> M W B) :
  simulates R m -> (forall a, simulates R (f a)) -> simulates R (bind m f).
Proof.
  intros Hm Hf wa wb Hw. unfold bind. destruct (Hm wa wb Hw) as [HR E].
  destruct (m wa) as [wa' ra], (m wb) as [wb' rb]; simpl in *. subst rb.
  destruct ra as [a|e]; simpl; auto. now apply Hf.
Qed.

Lemma simulates_for_each {A S} (xs : list A) (body : A -> S -> M W S) :
  (forall x s, simulates R (body x s)) ->
  forall s, simulates R (for_each xs body s).
Proof.
  intros Hb. induction xs as [|x xs IH]; intros s; simpl.
  - apply simulates_ret.
  - apply simulates_bind; auto.
Qed.

End Simulates.

(** ** The builder keeps the graph well formed *)

Lemma preserves_update_graph (f : Graph -> Graph) :
  (forall G, wf G -> wf (f G)) -> preserves wf_world (update_graph f).
Proof. intros Hf w Hw. now apply Hf. Qed.

Lemma preserves_logger (r : LogRecord) : preserves wf_world (logger r).
Proof. intros w Hw; exact Hw. Qed.

Ltac preserves_step :=
  first
    [ apply preserves_ret
    | apply preserves_lift
    | apply preserves_logger
    | apply preserves_update_graph; intros; auto using wf_add_node, wf_add_edge
    | apply preserves_bind; [|intros ?]
    | match goal with
      | |- preserves _ (if ?b then _ else _) => destruct b
      end ].

Lemma entity_line_wf line l : preserves wf_world (entity_line line l).
Proof. unfold entity_line. repeat preserves_step. Qed.

Lemma relationship_line_wf line l :
  preserves wf_world (relationship_line line l).
Proof. unfold relationship_line. repeat preserves_step. Qed.

Lemma line_body_wf line l : preserves wf_world (line_body line l).
Proof.
  unfold line_body.
  repeat first [ apply entity_line_wf | apply relationship_line_wf
               | preserves_step ].
Qed.

Lemma summary_body_wf summary u : preserves wf_world (summary_body summary u).
Proof.
  unfold summary_body.
  repeat first [ apply preserves_for_each; intros; apply line_body_wf
               | preserves_step ].
Qed.

Lemma built_graph_wf summaries : wf (built_graph summaries).
Proof.
  unfold built_graph, _build_graph_from_summaries.
  set (loop := try_except _ _).
  assert (Hloop : preserves wf_world loop).
  { apply preserves_try_except.
    - apply preserves_for_each. intros; apply summary_body_wf.
    - intros e. apply preserves_logger. }
  unfold bind at 1. simpl. unfold bind.
  specialize (Hloop (mkWorld empty_graph (log fresh)) wf_empty).
  destruct (loop _) as [w' [a|e]]; simpl in *; exact Hloop.
Qed.

(** ** The builder always returns *)

Section Catchable.

Context {W : Type}.

Lemma catchable_ret {A} (a : A) : catchable (ret (W := W) a).
Proof. intros w e H; discriminate H. Qed.

Lemma catchable_index {A} (xs : list A) (i : Z) :
  catchable (lift (W := W) (py_index xs i)).
Proof.
  intros w e. unfold lift, py_index. simpl.
  destruct (_ <? 0)%Z; [now intros [= <-]|].
  destruct (nth_error xs _); [discriminate | now intros [= <-]].
Qed.

Lemma catchable_bind {A B} (m : M W A) (f : A -> M W B) :
  catchable m -> (forall a, catchable (f a)) -> catchable (bind m f).
Proof.
  intros Hm Hf w e. unfold bind. specialize (Hm w).
  destruct (m w) as [w' [a|e']]; simpl in *.
  - apply Hf.
  - intros [= <-]. now apply Hm.
Qed.

Lemma catchable_for_each {A S} (xs : list A) (body : A -> S -> M W S) :
  (forall x s, catchable (body x s)) ->
  forall s, catchable (for_each xs body s).
Proof.
  intros Hb. induction xs as [|x xs IH]; intros s; simpl.
  - apply catchable_ret.
  - apply catchable_bind; auto.
Qed.

End Catchable.

Ltac catchable_step :=
  first
    [ apply catchable_ret
    | apply catchable_index
    | apply catchable_bind; [|intros ?]
    | match goal with
      | |- catchable (if ?b then _ else _) => destruct b
      | |- catchable (update_graph _) => intros ? ? H; discriminate H
      | |- catchable (logger _) => intros ? ? H; discriminate H
      end ].

Lemma line_body_catchable line l : catchable (line_body line l).
Proof.
  unfold line_body, entity_line, relationship_line. repeat catchable_step.
Qed.

Lemma summary_body_catchable summary u : catchable (summary_body summary u).
Proof.
  unfold summary_body.
  repeat first [ apply catchable_for_each; intros; apply line_body_catchable
               | catchable_step ].
Qed.

(** Whatever the summaries, the builder returns the graph it has built so
    far: no exception leaves it. *)
Lemma build_returns (summaries : list str) (w : World) :
  exists w',
    _build_graph_from_summaries summaries w = (w', Ok (graph w')).
Proof.
  unfold _build_graph_from_summaries.
  unfold bind at 1. simpl. unfold bind, try_except.
  pose proof (catchable_for_each summaries summary_body
                (fun x u => summary_body_catchable x u) tt
                (mkWorld empty_graph (log w))) as H.
  destruct (for_each summaries summary_body tt _) as [w1 [[]|e]]; simpl in *.
  - eauto.
  - rewrite (H e eq_refl). simpl.
    now exists (mkWorld (graph w1) (log w1 ++ [Error_building e])).
Qed.

Lemma built_graph_returned (summaries : list str) :
  snd (_build_graph_from_summaries summaries fresh)
  = Ok (built_graph summaries).
Proof.
  unfold built_graph.
  destruct (build_returns summaries fresh) as [w' ->]. reflexivity.
Qed.

(** ** A summary writes its labels whatever the graph it starts from *)

Section Labels.

Variables src tgt : str.

Let R := label_carried src tgt.

Lemma simulates_logger (r : LogRecord) : simulates R (logger r).
Proof. intros wa wb H; split; trivial. Qed.

Lemma simulates_add_node (n : str) :
  simulates R (update_graph (fun G => add_node G n)).
Proof.
  intros wa wb H; split; trivial. intros lbl. simpl.
  rewrite !get_edge_data_add_node. apply H.
Qed.

Lemma simulates_add_edge (u v lbl : str) :
  simulates R (update_graph (fun G => add_edge G u v lbl)).
Proof.
  intros wa wb H; split; trivial. intros lbl'. simpl.
  rewrite !get_edge_data_add_edge.
  destruct ((str_eqb u src && str_eqb v tgt) || (str_eqb v src && str_eqb u tgt));
    trivial. apply H.
Qed.

Ltac simulates_step :=
  first
    [ apply simulates_ret
    | apply simulates_lift
    | apply simulates_logger
    | apply simulates_add_node
    | apply simulates_add_edge
    | apply simulates_bind; [|intros ?]
    | match goal with
      | |- simulates _ (if ?b then _ else _) => destruct b
      end ].

Lemma line_body_simulates line l : simulates R (line_body line l).
Proof.
  unfold line_body, entity_line, relationship_line. repeat simulates_step.
Qed.

Lemma summary_body_simulates summary u : simulates R (summary_body summary u).
Proof.
  unfold summary_body.
  repeat first [ apply simulates_for_each; intros; apply line_body_simulates
               | simulates_step ].
Qed.

End Labels.

(** The run on two summaries, when the first is read to its end. *)
Lemma build_two (s1 s2 : str) :
  snd (parse_summary s1 empty_graph) = Ok tt ->
  built_graph [s1; s2]
  = graph (fst (summary_body s2 tt (fst (parse_summary s1 empty_graph)))).
Proof.
  unfold built_graph, _build_graph_from_summaries, parse_summary, fresh.
  unfold bind, try_except, update_graph. simpl. unfold bind, ret.
  destruct (summary_body s1 tt _) as [w1 r1].
  simpl. intros ->.
  destruct (summary_body s2 tt w1) as [w2 [[]|e]]; simpl; trivial.
  destruct (is_Exception e); reflexivity.
Qed.

(** The run stops at the first summary whose parse raises: the summaries
    after it leave no trace in the graph. *)
Lemma build_stops_at_first_error (s1 : str) (rest : list str) (e : exn) :
  snd (parse_summary s1 empty_graph) = Raise e ->
  built_graph (s1 :: rest) = graph (fst (parse_summary s1 empty_graph)).
Proof.
  unfold built_graph, _build_graph_from_summaries, parse_summary, fresh.
  unfold bind, try_except, update_graph. simpl. unfold bind.
  destruct (summary_body s1 tt _) as [w1 r1].
  simpl. intros ->. destruct (is_Exception e); reflexivity.
Qed.

(** ** Strings *)

Lemma lstrip_keeps (c : ascii) (s : str) :
  isspace c = false -> In c s -> In c (lstrip s).
Proof.
  intros Hc. induction s as [|x s IH]; simpl; trivial.
  destruct (isspace x) eqn:Ex; [|trivial].
  intros [->|H]; [congruence | auto].
Qed.

Lemma strip_keeps (c : ascii) (s : str) :
  isspace c = false -> In c s -> In c (strip s).
Proof.
  intros Hc H. unfold strip, rstrip.
  apply in_rev. rewrite rev_involutive.
  apply lstrip_keeps; trivial. apply -> in_rev.
  now apply lstrip_keeps.
Qed.

Lemma strip_truthy (c : ascii) (s : str) :
  isspace c = false -> In c s -> truthy (strip s) = true.
Proof.
  intros Hc H. pose proof (strip_keeps c s Hc H) as H'.
  now destruct (strip s).
Qed.

Lemma startswith_app (s p : str) :
  startswith s p = true -> s = p ++ skipn (length p) s.
Proof.
  revert s; induction p as [|x p IH]; intros s; simpl; trivial.
  destruct s as [|c s]; [discriminate|]. simpl.
  destruct (Ascii.eqb_spec c x) as [->|]; simpl; [|discriminate].
  intros H. f_equal. auto.
Qed.

Lemma split_go_nonempty sep k s : split_go sep k s <> [].
Proof.
  revert k; induction s as [|c r IH]; intros k; cbn [split_go];
    [discriminate|].
  destruct k; [|apply IH].
  destruct (startswith (c :: r) sep); [discriminate|].
  unfold cons_first. destruct (split_go sep 0 r); discriminate.
Qed.

Lemma join_cons_first sep c parts :
  parts <> [] -> join sep (cons_first c parts) = c :: join sep parts.
Proof.
  destruct parts as [|p [|q ps]]; simpl; congruence.
Qed.

Lemma join_cons_nil sep parts :
  parts <> [] -> join sep ([] :: parts) = sep ++ join sep parts.
Proof.
  destruct parts; simpl; congruence.
Qed.

(** Joining the parts of a split with the separator gives the string back. *)
Lemma join_split_go sep k s :
  sep <> [] -> join sep (split_go sep k s) = skipn k s.
Proof.
  intros Hsep. revert k; induction s as [|c r IH]; intros k.
  - now destruct k.
  - destruct k as [|k]; [|apply IH]. cbn [split_go].
    destruct (startswith (c :: r) sep) eqn:E.
    + rewrite join_cons_nil by apply split_go_nonempty. rewrite IH.
      apply startswith_app in E. simpl skipn.
      etransitivity; [|symmetry; exact E].
      destruct sep as [|x sep]; [congruence|]. simpl.
      now rewrite Nat.sub_0_r.
    + rewrite join_cons_first by apply split_go_nonempty. now rewrite IH.
Qed.

Lemma join_split s sep : sep <> [] -> join sep (split s sep) = s.
Proof. intros H. unfold split. now rewrite join_split_go. Qed.

(** The shape of the parts of a line of two parts or more. *)
Lemma parts_shape (parts : list str) :
  2 <= length parts ->
  exists first middle last, parts = first :: middle ++ [last].
Proof.
  destruct parts as [|first rest]; simpl; [lia|]. intros H.
  destruct (exists_last (l := rest)) as (middle & last & ->).
  - destruct rest; simpl in *; [lia | discriminate].
  - eauto.
Qed.

Lemma py_index_first {A} (x : A) (rest : list A) :
  py_index (x :: rest) 0 = Ok x.
Proof. reflexivity. Qed.

Lemma py_index_last {A} (init : list A) (x : A) :
  py_index (init ++ [x]) (-1) = Ok x.
Proof.
  unfold py_index, len. rewrite length_app. simpl length.
  destruct (Z.ltb_spec (-1) 0); [|lia].
  destruct (Z.ltb_spec (-1 + Z.of_nat (length init + 1)) 0); [lia|].
  replace (Z.to_nat (-1 + Z.of_nat (length init + 1))) with (length init)
    by lia.
  now rewrite nth_error_app2, Nat.sub_diag by lia.
Qed.

Lemma py_slice_middle {A} (first last : A) (middle : list A) :
  py_slice (first :: middle ++ [last]) 1 (-1) = middle.
Proof.
  unfold py_slice.
  assert (Hn : len (first :: middle ++ [last])
               = (Z.of_nat (length middle) + 2)%Z).
  { unfold len. simpl length. rewrite length_app. simpl. lia. }
  rewrite (adjust_index_nonneg _ 1), (adjust_index_neg _ (-1)) by lia.
  rewrite Hn.
  rewrite Z.min_r by lia.
  replace (-1 + (Z.of_nat (length middle) + 2) - 1)%Z
    with (Z.of_nat (length middle)) by lia.
  rewrite Nat2Z.id. change (Z.to_nat 1) with 1. simpl skipn.
  now rewrite firstn_app, Nat.sub_diag, firstn_all, app_nil_r.
Qed.

(** A line that opens with the arrow has an empty first part. *)
Lemma split_arrow_prefix (rest : str) :
  exists middle last, split (arrow ++ rest) arrow = [] :: middle ++ [last].
Proof.
  unfold split. change (arrow ++ rest) with ("-"%char :: ">"%char :: rest).
  cbn [split_go].
  change (startswith ("-"%char :: ">"%char :: rest) arrow) with true.
  change (length arrow - 1) with 1. cbv iota.
  destruct (exists_last (split_go_nonempty arrow 0 rest)) as (m & x & ->).
  eauto.
Qed.

(** A line that closes with the arrow has an empty last part. *)
Lemma split_go_arrow_suffix (pre : str) (k : nat) :
  k <= length pre ->
  exists first middle,
    split_go arrow k (pre ++ arrow) = first :: middle ++ [[]].
Proof.
  revert k; induction pre as [|c pre IH]; intros k Hk.
  - assert (k = 0) as -> by (simpl in Hk; lia). exists [], []. reflexivity.
  - destruct k as [|k].
    + change ((c :: pre) ++ arrow) with (c :: pre ++ arrow).
      cbn [split_go]. change (length arrow - 1) with 1.
      destruct (startswith (c :: pre ++ arrow) arrow) eqn:E.
      * destruct pre as [|c' pre].
        { simpl in E. destruct (Ascii.eqb c "-"); discriminate. }
        destruct (IH 1) as (f & m & ->); [simpl; lia|].
        exists [], (f :: m). reflexivity.
      * destruct (IH 0) as (f & m & ->); [lia|].
        exists (c :: f), m. reflexivity.
    + simpl. apply IH. simpl in Hk. lia.
Qed.

(** ** One relationship line *)

Lemma line_body_relationship (line : str) (l : Locals) :
  is_entities_header line = false ->
  is_relationships_header line = false ->
  entities_section l = false ->
  relationships_section l = true ->
  truthy (strip line) = true ->
  line_body line l = relationship_line line l.
Proof.
  intros He Hr Hes Hrs Ht. unfold line_body.
  now rewrite He, Hr, Hes, Hrs, Ht.
Qed.

Lemma relationship_line_short (line : str) (l : Locals) (w : World) :
  length (split line arrow) < 2 -> relationship_line line l w = (w, Ok l).
Proof.
  intros H. unfold relationship_line, len.
  destruct (Z.leb_spec 2 (Z.of_nat (length (split line arrow)))); [lia|].
  reflexivity.
Qed.

Lemma relationship_line_edge (line : str) (l : Locals) (w : World)
    (first last : str) (middle : list str) :
  split line arrow = first :: middle ++ [last] ->
  relationship_line line l w
  = (mkWorld (add_edge (graph w) (strip first) (strip last)
                (strip (join (lit " -> ") middle)))
             (log w),
     Ok l).
Proof.
  intros E. unfold relationship_line. rewrite E.
  assert (Hlen : (2 <=? len (first :: middle ++ [last]))%Z = true).
  { apply Z.leb_le. unfold len. simpl length. rewrite length_app. simpl. lia. }
  rewrite Hlen, py_slice_middle.
  change (first :: middle ++ [last]) with ((first :: middle) ++ [last]).
  unfold bind, lift. rewrite py_index_last. reflexivity.
Qed.

(** ** The claims on the chunker's configuration *)

Lemma documents_loop_backwards (documents : list str) (L O : Z) :
  (L < O)%Z -> documents_loop documents L O [] = Ok [].
Proof.
  intros H. induction documents as [|d ds IH]; simpl; trivial.
  unfold py_range, range_len, len.
  destruct (Z.eqb_spec (L - O) 0); [lia|].
  destruct (Z.ltb_spec 0 (L - O)); [lia|].
  destruct (Z.ltb_spec (Z.of_nat (length d)) 0); [lia|].
  simpl. exact IH.
Qed.

(** C5, as the code has it.  With an overlap of at least the chunk length
    the chunker checks nothing itself: an overlap equal to the chunk length
    raises [ValueError] (the zero step of [range]) once there is a document,
    and a larger overlap, or an empty document list, gives no chunk and no
    error. *)
Theorem chunker_overlap_not_below_length (documents : list str) (L O : Z) :
  (L <= O)%Z ->
  _split_documents_into_chunks documents L O
  = match documents with
    | [] => Ok []
    | _ :: _ => if (O =? L)%Z then Raise ValueError else Ok []
    end.
Proof.
  intros H. unfold _split_documents_into_chunks.
  destruct documents as [|d ds]; trivial.
  destruct (Z.eqb_spec O L) as [->|Hne].
  - simpl. unfold py_range. now rewrite Z.sub_diag.
  - apply documents_loop_backwards. lia.
Qed.

Lemma chunker_overlap_not_below_length_witness :
  (3 <= 3)%Z /\ _split_documents_into_chunks [lit "abc"] 3 3 = Raise ValueError.
Proof.
  split; [lia|]. apply (chunker_overlap_not_below_length [lit "abc"] 3 3). lia.
Defined.

(** C5 as stated fails: overlap 200 on chunk length 100 raises nothing. *)
Lemma chunker_overlap_above_length_no_error :
  (100 <= 200)%Z
  /\ _split_documents_into_chunks [lit "abc"] 100 200 = Ok []
  /\ ~ (exists e, _split_documents_into_chunks [lit "abc"] 100 200 = Raise e).
Proof.
  split; [lia|]. split; [reflexivity|]. intros [e H]. discriminate H.
Qed.

Lemma chunker_windows_witness :
  (0 < 3)%Z /\ (3 < 10)%Z /\
  exists chunks,
    _split_documents_into_chunks [lit "abcdefghijklmnopqrstu"] 10 3 = Ok chunks
    /\ Forall (fun c => (len c <= 10)%Z) chunks
    /\ (forall k c1 c2,
          nth_error chunks k = Some c1 ->
          nth_error chunks (S k) = Some c2 ->
          let m := Nat.min (Z.to_nat 3) (length c2) in
          lastn m c1 = firstn m c2 /\ length (lastn m c1) = m)
    /\ non_overlapping (Z.to_nat (10 - 3)) chunks = lit "abcdefghijklmnopqrstu".
Proof.
  split; [lia|]. split; [lia|].
  apply (chunker_windows (lit "abcdefghijklmnopqrstu") 10 3); lia.
Defined.

(** ** The claims on the graph builder *)

(** C3. The summary of Alice and Bob gives the nodes "Alice" and "Bob", in
    this order, and the one edge from "Alice" to "Bob" labelled "knows". *)
Theorem alice_knows_bob :
  nodes (built_graph [summary_alice_bob]) = [lit "Alice"; lit "Bob"]
  /\ edges (built_graph [summary_alice_bob])
     = [(lit "Alice", lit "Bob", lit "knows")].
Proof. split; vm_compute; reflexivity. Qed.

(** C1, where the code departs from it.  The entity line "1" raises
    [IndexError] at [line[1]]; the error is logged, and the loop over the
    summaries is left: the summary after it, which alone gives the node
    "Bob", adds nothing. *)
Theorem summaries_after_an_error_are_dropped :
  nodes (built_graph [summary_bob]) = [lit "Bob"]
  /\ nodes (built_graph [summary_cut; summary_bob]) = []
  /\ built_log [summary_cut; summary_bob]
     = [Info_entities []; Error_building IndexError].
Proof. repeat split; vm_compute; reflexivity. Qed.

(** C2, where the code departs from it.  The graph is undirected: a relation
    from Alice to Bob and one from Bob to Alice share one edge, which keeps
    the label written last; and the edge view reports an edge from the
    endpoint that became a node first, here the target. *)
Theorem opposite_relations_share_one_edge :
  edges (built_graph [summary_both_ways])
  = [(lit "Alice", lit "Bob", lit "fears")]
  /\ edges (built_graph [summary_target_first])
     = [(lit "Bob", lit "Alice", lit "knows")].
Proof. split; vm_compute; reflexivity. Qed.

(** C6. In the graph built from any summaries, the two endpoints of every
    entry of the edge view are nodes; and a relationship line of two parts or
    more leaves its source and its target as nodes, whatever the graph
    before it held. *)
Theorem edge_endpoints_are_nodes (summaries : list str) :
  let G := built_graph summaries in
  (forall u v lbl,
      In (u, v, lbl) (edges G) -> In u (nodes G) /\ In v (nodes G))
  /\ (forall line l w first middle last,
        is_entities_header line = false ->
        is_relationships_header line = false ->
        entities_section l = false ->
        relationships_section l = true ->
        truthy (strip line) = true ->
        split line arrow = first :: middle ++ [last] ->
        let G' := graph (fst (line_body line l w)) in
        In (strip first) (nodes G') /\ In (strip last) (nodes G')).
Proof.
  split.
  - intros u v lbl H.
    apply edges_sound in H; [tauto | apply built_graph_wf].
  - intros line l w first middle last He Hr Hes Hrs Ht E G'. subst G'.
    rewrite line_body_relationship, (relationship_line_edge _ _ _ _ _ _ E)
      by assumption.
    simpl. rewrite !In_nodes_add_edge. tauto.
Qed.

Lemma edge_endpoints_are_nodes_witness :
  In (lit "Alice") (nodes (built_graph [summary_x; summary_alice_bob]))
  /\ In (lit "Bob") (nodes (built_graph [summary_x; summary_alice_bob])).
Proof.
  apply (proj1 (edge_endpoints_are_nodes [summary_x; summary_alice_bob])
               (lit "Alice") (lit "Bob") (lit "knows")).
  vm_compute. right. left. reflexivity.
Defined.

(** When the first of two summaries is read to its end, an edge that the
    second summary leaves between a pair is, in the graph built from the two
    in sequence, the one entry of the pair in the edge view, under the label
    of the second summary.  The hypothesis on the first summary is needed:
    see the theorem after this one. *)
Lemma later_label_wins_after_a_full_parse (s1 s2 : str) (u v l2 : str) :
  snd (parse_summary s1 empty_graph) = Ok tt ->
  get_edge_data (graph (fst (parse_summary s2 empty_graph))) u v = Some l2 ->
  let G := built_graph [s1; s2] in
  get_edge_data G u v = Some l2
  /\ exists a b, filter (joins u v) (edges G) = [(a, b, l2)].
Proof.
  intros H1 L2 G.
  assert (E : get_edge_data G u v = Some l2).
  { subst G. rewrite build_two by exact H1.
    destruct (summary_body_simulates u v s2 tt
                (mkWorld empty_graph []) (fst (parse_summary s1 empty_graph)))
      as [HR _].
    - intros lbl. discriminate.
    - apply HR. exact L2. }
  split; trivial.
  assert (Hwf : wf G) by apply built_graph_wf.
  destruct (edge_in_view G u v l2 Hwf E) as (a & b & Hab & _). eauto.
Qed.

(** C7, where the code departs from it.  Two summaries each define an edge
    between "A" and "B": parsed alone, the first leaves it with the label
    "x" and the second with the label "y".  The first goes on with the
    entity line "1", which raises; the loop over the summaries is left there
    (the defect shown for C1), the second summary is not parsed, and the one
    edge between "A" and "B" in the graph built from the two keeps "x", the
    label of the earlier summary. *)
Theorem earlier_label_kept_after_an_error :
  get_edge_data (graph (fst (parse_summary summary_x_cut empty_graph)))
    (lit "A") (lit "B") = Some (lit "x")
  /\ get_edge_data (graph (fst (parse_summary summary_y empty_graph)))
       (lit "A") (lit "B") = Some (lit "y")
  /\ edges (built_graph [summary_x_cut; summary_y])
     = [(lit "A", lit "B", lit "x")]
  /\ built_log [summary_x_cut; summary_y]
     = [Info_entities []; Error_building IndexError].
Proof. repeat split; vm_compute; reflexivity. Qed.

(** C8, as the code has it.  A non-blank line read in the relationships
    section is split on the arrow, and the parts joined by the arrow are the
    line.  With fewer than two parts the graph and the log stay as they are
    and nothing is raised.  Otherwise the source is the first part trimmed,
    the target the last part trimmed, and the label the parts in between
    joined with " -> " (an arrow between two spaces) and trimmed; the edge
    between source and target then carries that label. *)
Theorem relationship_line_parts (line : str) (l : Locals) (w : World) :
  is_entities_header line = false ->
  is_relationships_header line = false ->
  entities_section l = false ->
  relationships_section l = true ->
  truthy (strip line) = true ->
  let parts := split line arrow in
  join arrow parts = line
  /\ (length parts < 2 -> line_body line l w = (w, Ok l))
  /\ (2 <= length parts ->
      exists first middle last,
        parts = first :: middle ++ [last]
        /\ let source := strip first in
           let target := strip last in
           let relation := strip (join (lit " -> ") middle) in
           line_body line l w
           = (mkWorld (add_edge (graph w) source target relation) (log w),
              Ok l)
           /\ get_edge_data (add_edge (graph w) source target relation)
                source target
              = Some relation).
Proof.
  intros He Hr Hes Hrs Ht parts.
  rewrite line_body_relationship by assumption.
  split; [|split].
  - apply join_split. discriminate.
  - apply relationship_line_short.
  - intros Hlen. destruct (parts_shape parts Hlen) as (f & m & x & E).
    exists f, m, x. split; [exact E|]. split.
    + now apply relationship_line_edge.
    + rewrite get_edge_data_add_edge, !str_eqb_refl. reflexivity.
Qed.

Lemma relationship_line_parts_witness :
  let line := lit "a->b->c->d" in
  let l := in_relationships in
  let w := fresh in
  let parts := split line arrow in
  join arrow parts = line
  /\ (length parts < 2 -> line_body line l w = (w, Ok l))
  /\ (2 <= length parts ->
      exists first middle last,
        parts = first :: middle ++ [last]
        /\ let source := strip first in
           let target := strip last in
           let relation := strip (join (lit " -> ") middle) in
           line_body line l w
           = (mkWorld (add_edge (graph w) source target relation) (log w),
              Ok l)
           /\ get_edge_data (add_edge (graph w) source target relation)
                source target
              = Some relation).
Proof.
  apply (relationship_line_parts (lit "a->b->c->d") in_relationships fresh);
    reflexivity.
Defined.

(** C8 as stated fails: on the line "a->b->c->d" the label stored between
    "a" and "d" is "b -> c", with its spaces, and not "b->c". *)
Lemma chained_label_has_spaces :
  get_edge_data
    (graph (fst (line_body (lit "a->b->c->d") in_relationships fresh)))
    (lit "a") (lit "d")
  = Some (lit "b -> c")
  /\ lit "b -> c" <> lit "b->c".
Proof. split; [vm_compute; reflexivity | discriminate]. Qed.

(** C10. A line read in the relationships section that opens or closes with
    the arrow is not set aside and raises nothing: the empty string becomes a
    node, and the edge view has an edge with the empty string at one end. *)
Theorem empty_endpoint_is_kept (line : str) (l : Locals) (w : World) :
  wf (graph w) ->
  is_entities_header line = false ->
  is_relationships_header line = false ->
  entities_section l = false ->
  relationships_section l = true ->
  (exists rest, line = arrow ++ rest) \/ (exists pre, line = pre ++ arrow) ->
  let r := line_body line l w in
  snd r = Ok l
  /\ In [] (nodes (graph (fst r)))
  /\ exists a b lbl,
      In (a, b, lbl) (edges (graph (fst r))) /\ (a = [] \/ b = []).
Proof.
  intros Hwf He Hr Hes Hrs Hline r.
  assert (Ht : truthy (strip line) = true).
  { apply (strip_truthy "-"%char); [reflexivity|].
    destruct Hline as [[rest ->]|[pre ->]].
    - now left.
    - apply in_or_app. right. now left. }
  assert (Hparts : exists first middle last,
             split line arrow = first :: middle ++ [last]
             /\ (first = [] \/ last = [])).
  { destruct Hline as [[rest ->]|[pre ->]].
    - destruct (split_arrow_prefix rest) as (m & x & E). eauto 6.
    - destruct (split_go_arrow_suffix pre 0) as (f & m & E); [lia|].
      exists f, m, []. eauto. }
  destruct Hparts as (f & m & x & E & Hempty).
  subst r. rewrite line_body_relationship by assumption.
  rewrite (relationship_line_edge _ _ _ _ _ _ E). simpl.
  set (lbl := strip (join (lit " -> ") m)).
  set (G' := add_edge (graph w) (strip f) (strip x) lbl).
  split; trivial. split.
  - subst G'. rewrite In_nodes_add_edge.
    destruct Hempty as [->| ->]; auto.
  - assert (Hwf' : wf G') by now apply wf_add_edge.
    assert (Hl : get_edge_data G' (strip f) (strip x) = Some lbl).
    { subst G'. now rewrite get_edge_data_add_edge, !str_eqb_refl. }
    destruct (edge_in_view G' _ _ _ Hwf' Hl) as (a & b & _ & Hin & Hab).
    exists a, b, lbl. split; trivial.
    assert (Hs : strip [] = []) by reflexivity.
    destruct Hempty as [->| ->]; rewrite Hs in Hab; tauto.
Qed.

Lemma empty_endpoint_is_kept_witness :
  let r := line_body (lit "->knows->Bob") in_relationships fresh in
  snd r = Ok in_relationships
  /\ In [] (nodes (graph (fst r)))
  /\ exists a b lbl,
      In (a, b, lbl) (edges (graph (fst r))) /\ (a = [] \/ b = []).
Proof.
  apply (empty_endpoint_is_kept (lit "->knows->Bob") in_relationships fresh);
    try reflexivity.
  - exact wf_empty.
  - left. exists (lit "knows->Bob"). reflexivity.
Defined.

(** ** The claim on the top-level run *)

(** When the driver is obtained, [driver.close] is called on every path. *)
Lemma released_once_connected (d : unit) (st cl : result unit) :
  released
    (fst (process_txts_and_update_neo4j (mkCollaborators (Ok d) st cl) entry))
  = true.
Proof.
  destruct st as [[]|e]; [|destruct e]; destruct cl; reflexivity.
Qed.

(** C9, where the code departs from it.  When the constructor of the driver
    raises, the local [driver] is never bound: the [finally] clause raises
    [UnboundLocalError], which leaves the run, and [close] is not called;
    this whatever the exception raised and whatever the other collaborators
    would have done. *)
Theorem connection_failure_leaves_unbound_driver
    (e : exn) (st cl : result unit) :
  let r := process_txts_and_update_neo4j
             (mkCollaborators (Raise e) st cl) entry in
  snd r = Raise UnboundLocalError /\ released (fst r) = false.
Proof. destruct e; split; reflexivity. Qed.

(** ** More on the chunker *)

(** Chunks already collected stay in front of those of the documents that
    follow. *)
Lemma documents_loop_acc (documents : list str) (L O : Z) (acc : list str) :
  documents_loop documents L O acc
  = match documents_loop documents L O [] with
    | Ok chunks => Ok (acc ++ chunks)
    | Raise e => Raise e
    end.
Proof.
  revert acc; induction documents as [|d ds IH]; intros acc; simpl.
  - now rewrite app_nil_r.
  - destruct (py_range 0 (len d) (L - O)) as [idx|e]; trivial.
    rewrite IH, (IH (chunk_loop d L idx [])), !chunk_loop_map.
    destruct (documents_loop ds L O []); trivial.
    now rewrite app_assoc.
Qed.

(** X2.  Chunking a list of documents is chunking its parts and appending the
    chunks, in the order of the documents; an error of either part is the
    error of the whole, the first part first. *)
Theorem chunker_appends_documents (docs1 docs2 : list str) (L O : Z) :
  _split_documents_into_chunks (docs1 ++ docs2) L O
  = match _split_documents_into_chunks docs1 L O with
    | Raise e => Raise e
    | Ok chunks1 =>
        match _split_documents_into_chunks docs2 L O with
        | Raise e => Raise e
        | Ok chunks2 => Ok (chunks1 ++ chunks2)
        end
    end.
Proof.
  unfold _split_documents_into_chunks.
  induction docs1 as [|d ds IH]; simpl.
  - now destruct (documents_loop docs2 L O []).
  - destruct (py_range 0 (len d) (L - O)) as [idx|e]; trivial.
    set (acc := chunk_loop d L idx []).
    rewrite (documents_loop_acc (ds ++ docs2) L O acc),
            (documents_loop_acc ds L O acc), IH.
    destruct (documents_loop ds L O []) as [c1|e]; trivial.
    destruct (documents_loop docs2 L O []) as [c2|e]; trivial.
    now rewrite app_assoc.
Qed.

Lemma py_slice_forward {A} (xs : list A) (i n : Z) :
  (0 <= i <= len xs)%Z -> (0 <= n)%Z ->
  py_slice xs i (i + n) = firstn (Z.to_nat n) (skipn (Z.to_nat i) xs).
Proof.
  intros Hi Hn. unfold py_slice.
  rewrite !adjust_index_nonneg by (unfold len in *; lia).
  unfold len in *. rewrite (Z.min_r _ i) by lia.
  destruct (Z.le_ge_cases (i + n) (Z.of_nat (length xs))).
  - rewrite Z.min_r by lia. f_equal. lia.
  - rewrite Z.min_l by lia.
    rewrite (firstn_all2 (n := Z.to_nat n)) by (rewrite length_skipn; lia).
    apply firstn_all2. rewrite length_skipn. lia.
Qed.

Lemma range_len_forward (N step : Z) :
  (0 <= N)%Z -> (0 < step)%Z ->
  range_len 0 N step = ((N + step - 1) / step)%Z.
Proof.
  intros HN Hs. unfold range_len.
  destruct (Z.ltb_spec 0 step); [|lia].
  destruct (Z.ltb_spec 0 N).
  - replace (N + step - 1)%Z with (N - 0 - 1 + 1 * step)%Z by lia.
    now rewrite Z.div_add by lia.
  - replace N with 0%Z by lia. symmetry. apply Z.div_small. lia.
Qed.

Section Windows.

Variable document : str.
Variables L O : Z.
Hypothesis HL : (0 < L)%Z.
Hypothesis HS : (O < L)%Z.

Let l := Z.to_nat L.
Let s := Z.to_nat (L - O).
Let N := length document.
Let n := Z.to_nat ((len document + (L - O) - 1) / (L - O)).

Lemma stride_count :
  (forall k, k < n -> k * s < N) /\ N <= n * s /\ (N = 0 -> n = 0).
Proof.
  subst n s N. unfold len. set (step := (L - O)%Z).
  assert (Hs : (0 < step)%Z) by (subst step; lia).
  set (Nz := Z.of_nat (length document)).
  pose proof (Z.div_mod (Nz + step - 1) step ltac:(lia)) as E.
  pose proof (Z.mod_pos_bound (Nz + step - 1) step Hs) as B.
  set (q := ((Nz + step - 1) / step)%Z) in *.
  assert (0 <= q)%Z by (subst q; apply Z.div_pos; lia).
  split; [|split].
  - intros k Hk. apply Nat2Z.inj_lt. rewrite Nat2Z.inj_mul, Z2Nat.id by lia.
    fold Nz. assert (Z.of_nat k + 1 <= q)%Z by lia. nia.
  - apply Nat2Z.inj_le. rewrite Nat2Z.inj_mul, !Z2Nat.id by lia.
    fold Nz. nia.
  - intros H0. assert (q = 0)%Z; [|lia].
    subst q. apply Z.div_small. lia.
Qed.

Lemma split_windows :
  _split_documents_into_chunks [document] L O
  = Ok (map (fun k => firstn l (skipn (k * s) document)) (seq 0 n)).
Proof.
  unfold _split_documents_into_chunks, documents_loop, py_range.
  destruct (Z.eqb_spec (L - O) 0); [lia|].
  rewrite chunk_loop_map, map_map, range_len_forward by (unfold len; lia).
  simpl. f_equal. fold n.
  apply map_ext_in. intros k Hk. apply in_seq in Hk.
  destruct stride_count as [Hlt _]. specialize (Hlt k ltac:(lia)).
  assert (Hk' : (0 <= Z.of_nat k * (L - O) <= len document)%Z).
  { unfold len. fold N. subst s.
    assert (Z.of_nat (k * Z.to_nat (L - O)) < Z.of_nat N)%Z by lia.
    rewrite Nat2Z.inj_mul, Z2Nat.id in *; lia. }
  rewrite py_slice_forward by lia.
  do 2 f_equal. subst s. rewrite Z2Nat.inj_mul, Nat2Z.id; lia.
Qed.

(** X1.  With a positive chunk length and a positive stride, a document of [N]
    characters gives the ceiling of [N / (L - O)] chunks; the [k]-th is the
    text from position [k * (L - O)], cut at [L] characters, and it is never
    empty. *)
Theorem chunker_count_and_content :
  exists chunks,
    _split_documents_into_chunks [document] L O = Ok chunks
    /\ len chunks = ((len document + (L - O) - 1) / (L - O))%Z
    /\ forall k, k < length chunks ->
         exists c,
           nth_error chunks k = Some c
           /\ c = firstn (Z.to_nat L)
                    (skipn (k * Z.to_nat (L - O)) document)
           /\ length c
              = Nat.min (Z.to_nat L)
                        (length document - k * Z.to_nat (L - O))
           /\ 1 <= length c.
Proof.
  exists (map (fun k => firstn l (skipn (k * s) document)) (seq 0 n)).
  split; [apply split_windows|]. split.
  - unfold len at 1. rewrite length_map, length_seq. subst n.
    apply Z2Nat.id. apply Z.div_pos; unfold len; lia.
  - rewrite length_map, length_seq. intros k Hk.
    exists (firstn l (skipn (k * s) document)).
    rewrite nth_error_map, nth_error_seq.
    destruct (Nat.ltb_spec k n); [|lia]. simpl.
    split; trivial. split; trivial.
    rewrite length_firstn, length_skipn. split; trivial.
    destruct stride_count as [Hlt _]. specialize (Hlt k Hk).
    fold N. subst l. lia.
Qed.

End Windows.

Lemma firstn_add_split {A} (a b : nat) (xs : list A) :
  firstn (a + b) xs = firstn a xs ++ firstn b (skipn a xs).
Proof.
  revert xs; induction a as [|a IH]; intros xs; simpl; trivial.
  destruct xs as [|x xs]; simpl.
  - now rewrite firstn_nil.
  - now rewrite IH.
Qed.

Lemma concat_strides (xs : str) (s a m : nat) :
  concat (map (fun k => firstn s (skipn (k * s) xs)) (seq a m))
  = firstn (m * s) (skipn (a * s) xs).
Proof.
  revert a; induction m as [|m IH]; intros a; simpl; trivial.
  rewrite IH, firstn_add_split, skipn_skipn. reflexivity.
Qed.

(** X3.  A document that is not longer than the stride [L - O], with an
    overlap that is not negative, is its own and only chunk. *)
Theorem chunker_short_document (document : str) (L O : Z) :
  (0 <= O)%Z ->
  (0 < len document <= L - O)%Z ->
  _split_documents_into_chunks [document] L O = Ok [document].
Proof.
  intros HO HN. rewrite split_windows by lia.
  assert (E : ((len document + (L - O) - 1) / (L - O) = 1)%Z).
  { replace (len document + (L - O) - 1)%Z
      with (len document - 1 + 1 * (L - O))%Z by lia.
    rewrite Z.div_add, Z.div_small by lia. reflexivity. }
  rewrite E. simpl. do 2 f_equal.
  apply firstn_all2. unfold len in HN. lia.
Qed.

Lemma chunker_short_document_witness :
  (0 <= default_overlap_size)%Z
  /\ (0 < len (lit "one short note")
      <= default_chunk_size - default_overlap_size)%Z
  /\ _split_documents_into_chunks [lit "one short note"]
       default_chunk_size default_overlap_size
     = Ok [lit "one short note"].
Proof.
  assert (H0 : (0 <= default_overlap_size)%Z) by (vm_compute; discriminate).
  assert (H1 : (0 < len (lit "one short note")
                <= default_chunk_size - default_overlap_size)%Z)
    by (vm_compute; split; [reflexivity | discriminate]).
  split; [exact H0|]. split; [exact H1|].
  exact (chunker_short_document (lit "one short note")
           default_chunk_size default_overlap_size H0 H1).
Defined.

(** X4.  Empty documents give no chunk, whatever the sizes, as long as the
    stride is not zero. *)
Theorem chunker_empty_documents (documents : list str) (L O : Z) :
  Forall (fun d => d = []) documents ->
  L <> O ->
  _split_documents_into_chunks documents L O = Ok [].
Proof.
  intros Hall Hne. unfold _split_documents_into_chunks.
  induction Hall as [|d ds -> _ IH]; simpl; trivial.
  unfold py_range, range_len, len. simpl length.
  destruct (Z.eqb_spec (L - O) 0); [lia|].
  destruct (0 <? L - O)%Z; simpl; exact IH.
Qed.

Lemma chunker_empty_documents_witness :
  _split_documents_into_chunks [[]; []] 3 5 = Ok [].
Proof.
  apply (chunker_empty_documents [[]; []] 3 5).
  - repeat constructor.
  - discriminate.
Defined.

(** X5.  Without overlap the chunks cut the document in pieces: put end to
    end they are the document, and all of them but the last have exactly [L]
    characters. *)
Theorem chunker_zero_overlap (document : str) (L : Z) :
  (0 < L)%Z ->
  exists chunks,
    _split_documents_into_chunks [document] L 0 = Ok chunks
    /\ concat chunks = document
    /\ forall k c, nth_error chunks k = Some c ->
                   S k < length chunks -> len c = L.
Proof.
  intros HL. rewrite split_windows by lia.
  rewrite Z.sub_0_r.
  set (l := Z.to_nat L).
  set (n := Z.to_nat ((len document + L - 1) / L)).
  destruct (stride_count document L 0 HL HL) as (Hlt & Hcov & _).
  rewrite Z.sub_0_r in Hlt, Hcov. fold l n in Hlt, Hcov.
  eexists; split; [reflexivity|]. split.
  - rewrite concat_strides. simpl. apply firstn_all2. lia.
  - intros k c. rewrite length_map, length_seq, nth_error_map, nth_error_seq.
    destruct (Nat.ltb_spec k n); [|discriminate]. simpl.
    intros [= <-] Hk. unfold len. rewrite length_firstn, length_skipn.
    specialize (Hlt (S k) Hk). simpl in Hlt. subst l. lia.
Qed.

Lemma chunker_zero_overlap_witness :
  exists chunks,
    _split_documents_into_chunks [lit "abcdefghij"] 4 0 = Ok chunks
    /\ concat chunks = lit "abcdefghij"
    /\ forall k c, nth_error chunks k = Some c ->
                   S k < length chunks -> len c = 4%Z.
Proof. apply (chunker_zero_overlap (lit "abcdefghij") 4). reflexivity. Defined.

Lemma chunker_count_and_content_witness :
  exists chunks,
    _split_documents_into_chunks [lit "abcdefghijklmno"] 10 8 = Ok chunks
    /\ len chunks = ((len (lit "abcdefghijklmno") + (10 - 8) - 1) / (10 - 8))%Z
    /\ forall k, k < length chunks ->
         exists c,
           nth_error chunks k = Some c
           /\ c = firstn (Z.to_nat 10)
                    (skipn (k * Z.to_nat (10 - 8)) (lit "abcdefghijklmno"))
           /\ length c
              = Nat.min (Z.to_nat 10)
                        (length (lit "abcdefghijklmno")
                         - k * Z.to_nat (10 - 8))
           /\ 1 <= length c.
Proof.
  apply (chunker_count_and_content (lit "abcdefghijklmno") 10 8);
    reflexivity.
Defined.

(** ** More on the graph builder *)

(** Two runs of a line, of a summary: the shape shared by the relations
    used below. *)
Section Related.

Variable R : World -> World -> Prop.
Hypothesis R_log : forall r, simulates R (logger r).
Hypothesis R_graph :
  forall f, simulates R (update_graph f).

Ltac related_step :=
  first
    [ apply simulates_ret
    | apply simulates_lift
    | apply R_log
    | apply R_graph
    | apply simulates_bind; [|intros ?]
    | match goal with
      | |- simulates _ (if ?b then _ else _) => destruct b
      end ].

Lemma line_body_related line l : simulates R (line_body line l).
Proof.
  unfold line_body, entity_line, relationship_line. repeat related_step.
Qed.

Lemma summary_body_related summary u : simulates R (summary_body summary u).
Proof.
  unfold summary_body.
  repeat first [ apply simulates_for_each; intros; apply line_body_related
               | related_step ].
Qed.

End Related.

(** The outcome of a line, and the state of the loop after it, do not
    depend on the graph or on the log. *)
Lemma summary_outcome_fixed (summary : str) (wa wb : World) :
  snd (summary_body summary tt wa) = snd (summary_body summary tt wb).
Proof.
  apply (summary_body_related (fun _ _ => True)); trivial;
    intros; intros ? ? _; split; trivial.
Qed.

(** The graph after a summary does not depend on the log. *)
Lemma summary_graph_fixed (summary : str) (wa wb : World) :
  graph wa = graph wb ->
  graph (fst (summary_body summary tt wa))
  = graph (fst (summary_body summary tt wb)).
Proof.
  apply (summary_body_related (fun wa wb => graph wa = graph wb)).
  - intros r wa' wb' H; split; trivial.
  - intros f wa' wb' H; split; trivial. simpl. now rewrite H.
Qed.

Lemma for_each_app {W A S} (xs ys : list A) (body : A -> S -> M W S) (s : S)
    (w : W) :
  for_each (xs ++ ys) body s w
  = (s' <- for_each xs body s ;; for_each ys body s') w.
Proof.
  revert s w; induction xs as [|x xs IH]; intros s w; simpl.
  - reflexivity.
  - unfold bind. destruct (body x s w) as [w' [s'|e]]; trivial.
Qed.

(** The graph returned is the one left by the loop over the summaries. *)
Lemma built_graph_loop (summaries : list str) :
  built_graph summaries
  = graph (fst (for_each summaries summary_body tt fresh)).
Proof.
  unfold built_graph, _build_graph_from_summaries, fresh.
  unfold bind at 1. unfold update_graph. simpl. unfold bind, try_except.
  destruct (for_each summaries summary_body tt _) as [w [[]|e]]; simpl;
    trivial.
  destruct (is_Exception e); reflexivity.
Qed.

Lemma built_log_loop (summaries : list str) :
  built_log summaries
  = let r := for_each summaries summary_body tt fresh in
    match snd r with
    | Ok _ => log (fst r)
    | Raise e => log (fst r) ++ [Error_building e]
    end.
Proof.
  unfold built_log, _build_graph_from_summaries, fresh.
  unfold bind at 1. unfold update_graph. simpl. unfold bind, try_except.
  pose proof (catchable_for_each summaries summary_body
                (fun x u => summary_body_catchable x u) tt
                (mkWorld empty_graph [])) as H.
  destruct (for_each summaries summary_body tt _) as [w [[]|e]]; simpl in *;
    trivial.
  now rewrite (H e eq_refl).
Qed.

(** A line leaves the log alone; a summary adds its one record. *)
Lemma line_body_log line l w : log (fst (line_body line l w)) = log w.
Proof.
  assert (H : preserves (fun w' => log w' = log w) (line_body line l));
    [|exact (H w eq_refl)].
  unfold line_body, entity_line, relationship_line.
  repeat first
    [ apply preserves_ret
    | apply preserves_lift
    | apply preserves_bind; [|intros ?]
    | match goal with
      | |- preserves _ (if ?b then _ else _) => destruct b
      | |- preserves _ (update_graph _) => intros ? H; exact H
      end ].
Qed.

Lemma summary_body_log summary u w :
  log (fst (summary_body summary u w)) = log w ++ [Info_entities []].
Proof.
  unfold summary_body. unfold bind at 1. simpl. unfold bind.
  set (w0 := mkWorld (graph w) (log w ++ [Info_entities []])).
  assert (H : preserves (fun w' => log w' = log w0)
                (for_each (split summary newline) line_body
                   (mkLocals false false []))).
  { apply preserves_for_each. intros x l w' Hw'.
    now rewrite line_body_log. }
  specialize (H w0 eq_refl).
  destruct (for_each _ line_body _ w0) as [w1 [l|e]]; simpl in *; exact H.
Qed.

Lemma loop_all_parsed (summaries : list str) (w : World) :
  (forall s, In s summaries -> snd (parse_summary s empty_graph) = Ok tt) ->
  let r := for_each summaries summary_body tt w in
  snd r = Ok tt
  /\ graph (fst r) = parse_in_turn summaries (graph w)
  /\ log (fst r) = log w ++ map (fun _ => Info_entities []) summaries.
Proof.
  revert w; induction summaries as [|s ss IH]; intros w Hall; simpl.
  - now rewrite app_nil_r.
  - assert (Hs : snd (summary_body s tt w) = Ok tt).
    { rewrite (summary_outcome_fixed s w (mkWorld empty_graph [])).
      apply Hall. now left. }
    pose proof (summary_graph_fixed s w (mkWorld (graph w) []) eq_refl) as Hg.
    pose proof (summary_body_log s tt w) as Hl.
    unfold bind. unfold parse_in_turn. simpl. unfold parse_summary.
    destruct (summary_body s tt w) as [w1 r1]. simpl in *. subst r1.
    destruct (IH w1) as (H1 & H2 & H3); [intros; apply Hall; now right|].
    rewrite <- Hg. unfold parse_in_turn in H2.
    split; trivial. split; trivial.
    rewrite H3, Hl, <- app_assoc. reflexivity.
Qed.

(** X13.  When every summary can be read to its end, the graph built is the
    left fold of the summaries, each parsed from the graph left by those
    before it, and the log holds one information record per summary and no
    error. *)
Theorem build_is_a_fold (summaries : list str) :
  (forall s, In s summaries -> snd (parse_summary s empty_graph) = Ok tt) ->
  built_graph summaries = parse_in_turn summaries empty_graph
  /\ built_log summaries = map (fun _ => Info_entities []) summaries.
Proof.
  intros Hall. rewrite built_graph_loop, built_log_loop.
  destruct (loop_all_parsed summaries fresh Hall) as (H1 & H2 & H3).
  simpl in *. rewrite H1. auto.
Qed.

Lemma build_is_a_fold_witness :
  built_graph [summary_x; summary_alice_bob]
  = parse_in_turn [summary_x; summary_alice_bob] empty_graph
  /\ built_log [summary_x; summary_alice_bob]
     = map (fun _ => Info_entities []) [summary_x; summary_alice_bob].
Proof.
  apply (build_is_a_fold [summary_x; summary_alice_bob]).
  intros s [<-|[<-|[]]]; vm_compute; reflexivity.
Defined.

(** ** Nothing is taken out of the graph *)

Lemma extends_refl G : extends G G.
Proof. split; [exists []; now rewrite app_nil_r | auto]. Qed.

Lemma extends_trans G1 G2 G3 : extends G1 G2 -> extends G2 G3 -> extends G1 G3.
Proof.
  intros [[x1 E1] H1] [[x2 E2] H2]. split.
  - exists (x1 ++ x2). now rewrite E2, E1, app_assoc.
  - auto.
Qed.

Lemma keys_ensure_node adj n :
  exists extra, keys (ensure_node adj n) = keys adj ++ extra.
Proof.
  unfold ensure_node. destruct (dict_contains adj n) eqn:E.
  - exists []. now rewrite app_nil_r.
  - exists [n]. now rewrite keys_dict_set, E.
Qed.

Lemma keys_dict_set_present {V} (d : dict V) k v :
  In k (keys d) -> keys (dict_set d k v) = keys d.
Proof.
  intros H. apply dict_contains_keys in H. now rewrite keys_dict_set, H.
Qed.

Lemma extends_add_node G n : extends G (add_node G n).
Proof.
  split.
  - apply keys_ensure_node.
  - intros u v. now rewrite get_edge_data_add_node.
Qed.

Lemma extends_add_edge G u v lbl : extends G (add_edge G u v lbl).
Proof.
  split.
  - unfold nodes, add_edge. simpl.
    destruct (keys_ensure_node (_adj G) u) as [x1 E1].
    destruct (keys_ensure_node (ensure_node (_adj G) u) v) as [x2 E2].
    exists (x1 ++ x2).
    rewrite !keys_dict_set_present.
    + now rewrite E2, E1, app_assoc.
    + apply In_keys_ensure_node. right. apply In_keys_ensure_node. now left.
    + rewrite keys_dict_set_present;
        apply In_keys_ensure_node; [now left | right];
        apply In_keys_ensure_node; now left.
  - intros a b. rewrite get_edge_data_add_edge.
    destruct (_ || _); [discriminate | trivial].
Qed.

Lemma summary_body_extends (G0 : Graph) summary u :
  preserves (fun w => extends G0 (graph w)) (summary_body summary u).
Proof.
  assert (Hup : forall f, (forall G, extends G (f G)) ->
                  preserves (fun w => extends G0 (graph w)) (update_graph f)).
  { intros f Hf w Hw. simpl. eapply extends_trans; eauto. }
  assert (Hlog : forall r,
             preserves (fun w => extends G0 (graph w)) (logger r)).
  { intros r w Hw. exact Hw. }
  unfold summary_body.
  repeat first
    [ apply preserves_ret
    | apply preserves_lift
    | apply Hlog
    | apply Hup; intros; auto using extends_add_node, extends_add_edge
    | apply preserves_for_each; intros;
      unfold line_body, entity_line, relationship_line
    | apply preserves_bind; [|intros ?]
    | match goal with
      | |- preserves _ (if ?b then _ else _) => destruct b
      end ].
Qed.

(** X14.  Summaries added at the end of the sequence take nothing out of the
    graph: the nodes of the shorter run are the first nodes of the longer
    one, in the same order, and every pair that had an edge still has one. *)
Theorem build_only_grows (summaries more : list str) :
  extends (built_graph summaries) (built_graph (summaries ++ more)).
Proof.
  rewrite !built_graph_loop, for_each_app. unfold bind.
  destruct (for_each summaries summary_body tt fresh) as [w1 [[]|e]]; simpl.
  - apply (preserves_for_each (fun w => extends (graph w1) (graph w))).
    + intros x s. apply summary_body_extends.
    + apply extends_refl.
  - apply extends_refl.
Qed.

(** ** Trimming *)

Lemma lstrip_idempotent (s : str) : lstrip (lstrip s) = lstrip s.
Proof.
  induction s as [|c r IH]; simpl; trivial.
  destruct (isspace c) eqn:E; trivial. simpl. now rewrite E.
Qed.

Lemma rstrip_idempotent (s : str) : rstrip (rstrip s) = rstrip s.
Proof.
  unfold rstrip. now rewrite rev_involutive, lstrip_idempotent.
Qed.

Lemma lstrip_snoc (a : str) (c : ascii) :
  lstrip (a ++ [c])
  = match lstrip a with
    | [] => lstrip [c]
    | y => y ++ [c]
    end.
Proof.
  induction a as [|x a IH]; simpl; trivial.
  destruct (isspace x); trivial.
Qed.

Lemma rstrip_cons (c : ascii) (r : str) :
  rstrip (c :: r)
  = match rstrip r with
    | [] => if isspace c then [] else [c]
    | _ => c :: rstrip r
    end.
Proof.
  unfold rstrip. simpl rev. rewrite lstrip_snoc.
  destruct (lstrip (rev r)) as [|y ys] eqn:E.
  - simpl. now destruct (isspace c).
  - rewrite rev_app_distr. simpl rev at 1. simpl app.
    destruct (rev (y :: ys)) eqn:E'.
    + apply (f_equal (@length _)) in E'. rewrite length_rev in E'.
      discriminate E'.
    + simpl in E'. now rewrite E'.
Qed.

Lemma strip_commutes (s : str) : lstrip (rstrip s) = rstrip (lstrip s).
Proof.
  induction s as [|c r IH]; trivial.
  rewrite rstrip_cons. simpl lstrip at 2.
  destruct (isspace c) eqn:E.
  - rewrite <- IH. destruct (rstrip r) eqn:Er; trivial.
    simpl. now rewrite E.
  - rewrite rstrip_cons. destruct (rstrip r); simpl; now rewrite E.
Qed.

(** Trimming a trimmed string changes nothing. *)
Lemma strip_idempotent (s : str) : strip (strip s) = strip s.
Proof.
  unfold strip.
  now rewrite strip_commutes, rstrip_idempotent, lstrip_idempotent.
Qed.

Lemma isdigit_not_space (c : ascii) : isdigit c = true -> isspace c = false.
Proof.
  destruct c as [[] [] [] [] [] [] [] []]; vm_compute; intros H;
    try discriminate H; reflexivity.
Qed.

Lemma isdigit_not_dot (c : ascii) :
  isdigit c = true -> Ascii.eqb c "."%char = false.
Proof.
  destruct c as [[] [] [] [] [] [] [] []]; vm_compute; intros H;
    try discriminate H; reflexivity.
Qed.

(** ** What is left of the emphasis marks *)

Lemma replace_go_skip old new k c r :
  replace_go old new (S k) (c :: r) = replace_go old new k r.
Proof. reflexivity. Qed.

(** Removing every "**" leaves a text that starts with a star only if the
    text it comes from does. *)
Lemma unstarred_head (n : nat) :
  forall s, length s <= n ->
    forall rest, replace s (lit "**") [] = "*"%char :: rest ->
                 exists r, s = "*"%char :: r.
Proof.
  induction n as [|n IH]; intros s Hn rest.
  - destruct s; [discriminate | simpl in Hn; lia].
  - destruct s as [|c r]; [discriminate|].
    unfold replace. cbn [replace_go].
    destruct (startswith (c :: r) (lit "**")) eqn:E.
    + intros _. simpl in E. destruct (Ascii.eqb_spec c "*"); [|discriminate].
      subst. eauto.
    + intros [= -> _]. eauto.
Qed.

Lemma unstarred (n : nat) :
  forall s, length s <= n ->
    forall pre post,
      replace s (lit "**") [] <> pre ++ lit "**" ++ post.
Proof.
  induction n as [|n IH]; intros s Hn pre post.
  - destruct s; [|simpl in Hn; lia]. destruct pre; discriminate.
  - destruct s as [|c r]; [destruct pre; discriminate|].
    unfold replace. cbn [replace_go].
    destruct (startswith (c :: r) (lit "**")) eqn:E.
    + destruct r as [|c' r'];
        [simpl in E; destruct (Ascii.eqb c "*"); discriminate|].
      change (length (lit "**") - 1) with 1. rewrite replace_go_skip.
      simpl app. apply (IH r'). simpl in Hn. lia.
    + fold (replace r (lit "**") []). intros H.
      destruct pre as [|p pre].
      * simpl in H. injection H as -> H.
        destruct (unstarred_head (length r) r (le_n _) _ H) as [r' ->].
        simpl in E. discriminate E.
      * simpl in H. injection H as _ H.
        revert H. apply (IH r). simpl in Hn. lia.
Qed.

(** ** One entity line *)

Lemma lone_digit_truthy (line : str) :
  lone_digit line = true -> truthy (strip line) = true.
Proof.
  destruct line as [|c [|c' r]]; try discriminate. simpl. intros H.
  apply (strip_truthy c); [now apply isdigit_not_space | now left].
Qed.

(** What the entities branch does with a line that is not blank. *)
Lemma entity_line_spec (line : str) (l : Locals) (w : World) :
  truthy (strip line) = true ->
  entity_line line l w
  = if lone_digit line then (w, Raise IndexError)
    else
      let name := replace (strip (entity_text line)) (lit "**") [] in
      (mkWorld (add_node (graph w) name) (log w),
       Ok (mkLocals (entities_section l) (relationships_section l)
                    (entities l ++ [name]))).
Proof.
  intros Ht. destruct line as [|c [|c1 rest]].
  - discriminate Ht.
  - unfold entity_line, bind, lift. simpl.
    destruct (isdigit c); reflexivity.
  - unfold entity_line, entity_text, lone_digit, bind, lift.
    change (py_index (c :: c1 :: rest) 0) with (Ok (A := ascii) c).
    change (py_index (c :: c1 :: rest) 1) with (Ok (A := ascii) c1).
    cbv iota beta.
    destruct (isdigit c) eqn:Ed; [|reflexivity].
    unfold ret at 1. cbv iota beta.
    destruct (Ascii.eqb_spec c1 "."%char) as [->|Hc1]; [|reflexivity].
    simpl andb. cbv iota.
    assert (Es : split1 (c :: "."%char :: rest) (lit ".") = [[c]; rest]).
    { simpl. now rewrite (isdigit_not_dot c Ed). }
    rewrite Es. change (py_index [[c]; rest] 1) with (Ok (A := str) rest).
    cbv iota beta. unfold ret, update_graph. simpl.
    now rewrite strip_idempotent.
Qed.

Lemma relationship_line_returns (line : str) (l : Locals) (w : World) :
  snd (relationship_line line l w) = Ok l.
Proof.
  destruct (Nat.lt_ge_cases (length (split line arrow)) 2) as [H|H].
  - now rewrite relationship_line_short.
  - destruct (parts_shape _ H) as (f & m & x & E).
    now rewrite (relationship_line_edge _ _ _ _ _ _ E).
Qed.

(** X9.  The one line on which the loop raises.  A line raises exactly when it
    is read in the entities section, is no header, and is one digit and
    nothing else; the exception is [IndexError]. *)
Theorem line_raises_iff (line : str) (l : Locals) (w : World) (e : exn) :
  snd (line_body line l w) = Raise e
  <-> e = IndexError
      /\ is_entities_header line = false
      /\ is_relationships_header line = false
      /\ entities_section l = true
      /\ lone_digit line = true.
Proof.
  unfold line_body.
  destruct (is_entities_header line);
    [split; [discriminate | intros (_ & H & _); discriminate H]|].
  destruct (is_relationships_header line);
    [split; [discriminate | intros (_ & _ & H & _); discriminate H]|].
  destruct (entities_section l); simpl.
  - destruct (truthy (strip line)) eqn:Ht.
    + rewrite entity_line_spec by exact Ht.
      destruct (lone_digit line); simpl.
      * split; [intros [= <-]; auto | intros (-> & _); reflexivity].
      * split; [discriminate | intros (_ & _ & _ & _ & H); discriminate H].
    + assert (Hl : lone_digit line = false).
      { destruct (lone_digit line) eqn:E; trivial.
        apply lone_digit_truthy in E. congruence. }
      rewrite Hl.
      destruct (relationships_section l); simpl;
        (split; [discriminate | intros (_ & _ & _ & _ & H); discriminate H]).
  - assert (Hr : forall r : World * result Locals,
               snd r = Ok l ->
               snd r = Raise e <->
               e = IndexError /\ false = false /\ false = false
               /\ false = true /\ lone_digit line = true).
    { intros r ->. split; [discriminate|].
      intros (_ & _ & _ & H & _); discriminate H. }
    destruct (relationships_section l && truthy (strip line)).
    + apply Hr, relationship_line_returns.
    + now apply Hr.
Qed.

(** X10.  An entity line.  A line read in the entities section that is no
    header, not blank and not a lone digit adds one node and raises nothing.
    The name is the line, without a leading digit and full stop when it has
    them, trimmed, with every "**" taken out; no "**" is left in it. *)
Theorem entity_line_adds_its_name (line : str) (l : Locals) (w : World) :
  is_entities_header line = false ->
  is_relationships_header line = false ->
  entities_section l = true ->
  truthy (strip line) = true ->
  lone_digit line = false ->
  let name := replace (strip (entity_text line)) (lit "**") [] in
  line_body line l w
  = (mkWorld (add_node (graph w) name) (log w),
     Ok (mkLocals true (relationships_section l) (entities l ++ [name])))
  /\ In name (nodes (add_node (graph w) name))
  /\ (forall pre post, name <> pre ++ lit "**" ++ post).
Proof.
  intros He Hr Hes Ht Hl name. split; [|split].
  - unfold line_body. rewrite He, Hr, Hes, Ht. simpl.
    rewrite entity_line_spec by exact Ht. now rewrite Hl, Hes.
  - apply In_nodes_add_node. now left.
  - intros pre post. subst name. eapply unstarred. apply le_n.
Qed.

Lemma entity_line_adds_its_name_witness :
  let line := lit "3. **Marie Curie** " in
  let l := mkLocals true false [] in
  let name := replace (strip (entity_text line)) (lit "**") [] in
  name = lit "Marie Curie"
  /\ line_body line l fresh
     = (mkWorld (add_node (graph fresh) name) (log fresh),
        Ok (mkLocals true (relationships_section l) (entities l ++ [name])))
  /\ In name (nodes (add_node (graph fresh) name))
  /\ (forall pre post, name <> pre ++ lit "**" ++ post).
Proof.
  split; [reflexivity|].
  apply (entity_line_adds_its_name (lit "3. **Marie Curie** ")
           (mkLocals true false []) fresh); reflexivity.
Defined.

Lemma digit_opens_no_header (c : ascii) (r : str) :
  isdigit c = true ->
  is_entities_header (c :: r) = false
  /\ is_relationships_header (c :: r) = false.
Proof.
  destruct c as [[] [] [] [] [] [] [] []]; intros H;
    try discriminate H; split; reflexivity.
Qed.

(** X11.  Only one digit is taken as a number.  In the entities section a line
    that opens with two digits is kept whole: the name is the trimmed line,
    digits and full stop included, with every "**" taken out. *)
Theorem two_digit_number_is_kept (d1 d2 : ascii) (rest : str) (l : Locals)
    (w : World) :
  isdigit d1 = true -> isdigit d2 = true ->
  entities_section l = true ->
  let line := d1 :: d2 :: rest in
  let name := replace (strip line) (lit "**") [] in
  line_body line l w
  = (mkWorld (add_node (graph w) name) (log w),
     Ok (mkLocals true (relationships_section l) (entities l ++ [name]))).
Proof.
  intros H1 H2 Hes line name. subst name line.
  destruct (digit_opens_no_header d1 (d2 :: rest) H1) as [He Hr].
  assert (Ht : truthy (strip (d1 :: d2 :: rest)) = true).
  { apply (strip_truthy d1); [now apply isdigit_not_space | now left]. }
  unfold line_body. rewrite He, Hr, Hes, Ht.
  change (true && true) with true. cbv iota.
  rewrite entity_line_spec by exact Ht. rewrite Hes.
  unfold lone_digit, entity_text. rewrite H1.
  now rewrite (isdigit_not_dot d2 H2).
Qed.

Lemma two_digit_number_is_kept_witness :
  line_body (lit "10. Alice") (mkLocals true false []) fresh
  = (mkWorld (add_node empty_graph (lit "10. Alice")) [],
     Ok (mkLocals true false [lit "10. Alice"])).
Proof.
  apply (two_digit_number_is_kept "1"%char "0"%char (lit ". Alice")
           (mkLocals true false []) fresh); reflexivity.
Defined.

(** ** Text outside the sections *)

Lemma loop_outside_sections (lines : list str) (w : World) :
  Forall (fun line => is_entities_header line = false
                      /\ is_relationships_header line = false) lines ->
  for_each lines line_body (mkLocals false false []) w
  = (w, Ok (mkLocals false false [])).
Proof.
  induction 1 as [|line lines [He Hr] _ IH]; simpl; trivial.
  unfold bind, line_body. rewrite He, Hr. simpl. exact IH.
Qed.

(** X12.  A summary without any header line adds nothing to the graph and
    raises nothing, whatever its text: lines are only read after a header. *)
Theorem summary_without_header_is_ignored (summary : str) (G : Graph) :
  Forall (fun line => is_entities_header line = false
                      /\ is_relationships_header line = false)
         (split summary newline) ->
  parse_summary summary G = (mkWorld G [Info_entities []], Ok tt).
Proof.
  intros H. unfold parse_summary, summary_body.
  unfold bind at 1. simpl. unfold bind.
  now rewrite loop_outside_sections.
Qed.

Lemma summary_without_header_is_ignored_witness :
  parse_summary (text ["1"; "Alice->knows->Bob"; "## Entities:"; "Bob"]%string)
    empty_graph
  = (mkWorld empty_graph [Info_entities []], Ok tt).
Proof.
  apply (summary_without_header_is_ignored
           (text ["1"; "Alice->knows->Bob"; "## Entities:"; "Bob"]%string)
           empty_graph).
  vm_compute. repeat constructor.
Defined.

(** ** The graph built is a simple graph *)

(** X15.  In the graph built from any summaries no node is listed twice, an
    edge is stored with one label for both directions, and the edge view
    lists a pair once when it has an edge and not at all otherwise, as
    [number_of_edges] counts it. *)
Theorem built_graph_is_simple (summaries : list str) :
  let G := built_graph summaries in
  NoDup (nodes G)
  /\ (forall u v, get_edge_data G u v = get_edge_data G v u)
  /\ (forall u v,
        length (filter (joins u v) (edges G)) = number_of_edges G u v).
Proof.
  intros G. assert (Hwf : wf G) by apply built_graph_wf.
  pose proof Hwf as (Hk & _ & Hsym).
  assert (Hsym' : forall u v, get_edge_data G u v = get_edge_data G v u).
  { intros u v. destruct (get_edge_data G u v) as [lbl|] eqn:E.
    - symmetry. now apply Hsym.
    - destruct (get_edge_data G v u) as [lbl|] eqn:E'; trivial.
      apply Hsym in E'. congruence. }
  split; trivial. split; trivial.
  intros u v. unfold number_of_edges.
  destruct (get_edge_data G u v) as [lbl|] eqn:E.
  - destruct (edge_in_view G u v lbl Hwf E) as (a & b & -> & _). reflexivity.
  - destruct (filter (joins u v) (edges G)) as [|[[a b] lbl] rest] eqn:F;
      trivial.
    assert (Hin : In (a, b, lbl) (filter (joins u v) (edges G)))
      by (rewrite F; now left).
    apply filter_In in Hin as [Hin Hj].
    apply edges_sound in Hin as [Hab _]; trivial.
    unfold joins in Hj. simpl in Hj.
    apply orb_true_iff in Hj as [Hj|Hj];
      apply andb_true_iff in Hj as [Ha Hb];
      destruct (str_eqb_spec a u), (str_eqb_spec b v),
               (str_eqb_spec a v), (str_eqb_spec b u);
      try discriminate; subst; try congruence;
      rewrite Hsym' in Hab; congruence.
Qed.

(** ** Extraction and summaries *)

Section AskEach.

Variable complete : Completion.
Hypothesis Hdep : dependable complete.
Variable system : str.
Variable info : list str -> ServiceRecord.
Variable err : nat -> exn -> ServiceRecord.
Hypothesis Hinfo : forall l, is_error_record (info l) = false.
Hypothesis Herr : forall i e, is_error_record (err i e) = true.

Let body (ix : nat * str) (collected : list str) : M Service (list str) :=
  try_except
    (r <- chat complete system (snd ix) ;;
     let collected := collected ++ [r] in
     service_logger (info collected) ;;;
     ret collected)
    (fun e => service_logger (err (fst ix) e) ;;; ret collected).

Lemma ask_one (i : nat) (x : str) (acc : list str) (w : Service) :
  body (i, x) acc w
  = match complete (requests w) system x with
    | Ok r =>
        (mkService (requests w ++ [(system, x)])
                   (service_log w ++ [info (acc ++ [r])]),
         Ok (acc ++ [r]))
    | Raise e =>
        (mkService (requests w ++ [(system, x)])
                   (service_log w ++ [err i e]),
         Ok acc)
    end.
Proof.
  unfold body, try_except, bind, chat. simpl.
  destruct (complete (requests w) system x) as [r|e] eqn:E; trivial.
  now rewrite (Hdep _ _ _ _ E).
Qed.

Lemma ask_each (items : list str) :
  forall (i : nat) (acc : list str) (w : Service),
  exists records,
    for_each (combine (seq i (length items)) items) body acc w
    = (mkService (requests w ++ map (pair system) items)
                 (service_log w ++ records),
       Ok (acc ++ answers complete system (requests w) items))
    /\ filter is_error_record records
       = map (fun ie => err (fst ie) (snd ie))
             (failures complete system (requests w) i items).
Proof.
  induction items as [|x xs IH]; intros i acc w.
  - exists []. simpl. rewrite !app_nil_r. now destruct w.
  - cbn [length seq combine for_each answers failures]. unfold bind.
    rewrite ask_one.
    destruct (complete (requests w) system x) as [r|e].
    + destruct (IH (S i) (acc ++ [r])
                  (mkService (requests w ++ [(system, x)])
                             (service_log w ++ [info (acc ++ [r])])))
        as (records & E & F).
      exists (info (acc ++ [r]) :: records). rewrite E. simpl.
      rewrite <- !app_assoc, Hinfo. auto.
    + destruct (IH (S i) acc
                  (mkService (requests w ++ [(system, x)])
                             (service_log w ++ [err i e])))
        as (records & E & F).
      exists (err i e :: records). rewrite E. simpl.
      rewrite <- !app_assoc, Herr, F. auto.
Qed.

Lemma answers_and_failures (before : list (str * str)) (i : nat)
    (items : list str) :
  length (answers complete system before items)
  + length (failures complete system before i items)
  = length items.
Proof.
  revert before i; induction items as [|x xs IH]; intros before i; simpl;
    trivial.
  specialize (IH (before ++ [(system, x)]) (S i)).
  destruct (complete before system x); simpl; lia.
Qed.

End AskEach.

(** X7.  Extraction.  With a service that fails only with exceptions of
    class [Exception], extraction raises nothing and sends one request per
    chunk, in the order of the chunks, whatever fails.  It returns the
    answers of the requests that succeeded, in that order, and logs one
    error, with the index of its chunk, per request that failed; answers and
    errors together are as many as the chunks. *)
Theorem extraction_isolates_failures (complete : Completion)
    (chunks : list str) (w : Service) :
  dependable complete ->
  let r := _extract_elements_from_chunks complete chunks w in
  let elements := answers complete extract_system (requests w) chunks in
  let failed := failures complete extract_system (requests w) 0 chunks in
  snd r = Ok elements
  /\ requests (fst r) = requests w ++ map (pair extract_system) chunks
  /\ filter is_error_record (service_log (fst r))
     = filter is_error_record (service_log w)
       ++ map (fun ie => Error_extracting (fst ie) (snd ie)) failed
  /\ length elements + length failed = length chunks.
Proof.
  intros Hdep r elements failed. subst r.
  destruct (ask_each complete Hdep extract_system Info_element_list
              Error_extracting (fun _ => eq_refl) (fun _ _ => eq_refl)
              chunks 0 [] w) as (records & E & F).
  change (for_each _ _ [] w)
    with (_extract_elements_from_chunks complete chunks w) in E.
  rewrite E. simpl.
  rewrite filter_app, F. repeat split. apply answers_and_failures.
Qed.

(** X8.  Summaries.  The same holds of the summaries: one request per
    element, in order; the summaries of the requests that succeeded are
    returned, one error with its index is logged per request that failed,
    and nothing is raised. *)
Theorem summaries_isolate_failures (complete : Completion)
    (elements : list str) (w : Service) :
  dependable complete ->
  let r := _summarize_elements complete elements w in
  let summaries := answers complete summarize_system (requests w) elements in
  let failed := failures complete summarize_system (requests w) 0 elements in
  snd r = Ok summaries
  /\ requests (fst r) = requests w ++ map (pair summarize_system) elements
  /\ filter is_error_record (service_log (fst r))
     = filter is_error_record (service_log w)
       ++ map (fun ie => Error_summarizing (fst ie) (snd ie)) failed
  /\ length summaries + length failed = length elements.
Proof.
  intros Hdep r summaries failed. subst r.
  destruct (ask_each complete Hdep summarize_system Info_summary_list
              Error_summarizing (fun _ => eq_refl) (fun _ _ => eq_refl)
              elements 0 [] w) as (records & E & F).
  change (for_each _ _ [] w)
    with (_summarize_elements complete elements w) in E.
  rewrite E. simpl.
  rewrite filter_app, F. repeat split. apply answers_and_failures.
Qed.

(** ** Writing the graph to the database *)

Lemma queries_of_app (t1 t2 : list DbEvent) :
  queries_of (t1 ++ t2) = queries_of t1 ++ queries_of t2.
Proof. apply flat_map_app. Qed.

Lemma queries_of_runs (qs : list Query) : queries_of (map Query_run qs) = qs.
Proof. induction qs as [|q qs IH]; simpl; congruence. Qed.

Lemma for_each_mapped {A} (d : Neo4jDriver) (f : A -> Query) (xs : list A)
    (t : list DbEvent) :
  for_each xs (fun x _ => session_run d (f x)) tt t
  = run_in_turn d (map f xs) t.
Proof.
  unfold run_in_turn. revert t; induction xs as [|x xs IH]; intros t; simpl;
    trivial.
  unfold bind. destruct (session_run d (f x) t) as [t' [[]|e]]; trivial.
Qed.

(** The two loops send the statements of the plan, in turn. *)
Lemma loops_follow_plan (d : Neo4jDriver) (G : Graph) (t : list DbEvent) :
  (for_each (nodes G) (fun node _ => session_run d (Merge_entity node)) tt ;;;
   for_each (edges G) (fun edge _ => session_run d (relation_query edge)) tt)
    t
  = run_in_turn d (plan G) t.
Proof.
  unfold plan, run_in_turn. rewrite for_each_app. unfold bind.
  rewrite for_each_mapped. unfold run_in_turn.
  destruct (for_each (map Merge_entity (nodes G)) _ tt t) as [t' [[]|e]];
    trivial.
  apply for_each_mapped.
Qed.

Lemma run_in_turn_all (d : Neo4jDriver) (qs : list Query) :
  forall t, all_succeed d (queries_of t) qs ->
            run_in_turn d qs t = (t ++ map Query_run qs, Ok tt).
Proof.
  unfold run_in_turn.
  induction qs as [|q qs IH]; intros t; simpl.
  - now rewrite app_nil_r.
  - intros [Hq Hqs]. unfold bind, session_run. rewrite Hq.
    rewrite IH, <- app_assoc; trivial.
    rewrite queries_of_app. exact Hqs.
Qed.

Lemma run_in_turn_fails (d : Neo4jDriver) (pre : list Query) (q : Query)
    (post : list Query) (e : exn) :
  forall t, all_succeed d (queries_of t) pre ->
            run_outcome d (queries_of t ++ pre) q = Raise e ->
            run_in_turn d (pre ++ q :: post) t
            = (t ++ map Query_run (pre ++ [q]), Raise e).
Proof.
  unfold run_in_turn.
  induction pre as [|p pre IH]; intros t; simpl.
  - intros _ Hq. rewrite app_nil_r in Hq. unfold bind, session_run.
    now rewrite Hq.
  - intros [Hp Hpre] Hq. unfold bind, session_run. rewrite Hp.
    rewrite IH, <- app_assoc; trivial.
    + rewrite queries_of_app. exact Hpre.
    + rewrite queries_of_app, <- app_assoc. exact Hq.
Qed.

Lemma run_in_turn_prefix (d : Neo4jDriver) (qs : list Query) :
  forall t, exists n,
    fst (run_in_turn d qs t) = t ++ map Query_run (firstn n qs).
Proof.
  unfold run_in_turn.
  induction qs as [|q qs IH]; intros t; simpl.
  - exists 0. now rewrite app_nil_r.
  - unfold bind, session_run.
    destruct (run_outcome d (queries_of t) q) as [[]|e].
    + destruct (IH (t ++ [Query_run q])) as [n Hn]. exists (S n).
      cbv iota beta. etransitivity; [exact Hn|].
      now rewrite <- app_assoc.
    + exists 1. reflexivity.
Qed.

Lemma run_in_turn_catchable (d : Neo4jDriver) (qs : list Query) :
  sound_driver d -> catchable (run_in_turn d qs).
Proof.
  intros (_ & Hrun & _). unfold run_in_turn.
  apply catchable_for_each. intros q [] t e. unfold session_run. simpl.
  apply Hrun.
Qed.

Lemma bind_ext {W A B} (m : M W A) (f g : A -> M W B) (w : W) :
  (forall a w', f a w' = g a w') -> bind m f w = bind m g w.
Proof.
  intros H. unfold bind. destruct (m w) as [w' [a|e]]; auto.
Qed.

(** The whole function, with the loops read as the plan. *)
Lemma update_unfolded (d : Neo4jDriver) (G : Graph) (t : list DbEvent) :
  _update_neo4j_with_graph d G t
  = try_except
      (lift (session_outcome d) ;;;
       db_emit Session_opened ;;;
       try_finally (run_in_turn d (plan G))
         (db_emit Session_closed ;;; lift (exit_outcome d)))
      (fun e => db_emit (Error_updating e)) t.
Proof.
  unfold _update_neo4j_with_graph, try_except.
  match goal with
  | |- match ?X with _ => _ end = match ?Y with _ => _ end =>
      assert (E : X = Y); [|now rewrite E]
  end.
  apply bind_ext. intros _ t1. apply bind_ext. intros _ t2.
  unfold try_finally. now rewrite loops_follow_plan.
Qed.

(** X16.  When the session opens and closes and every statement succeeds, the
    database receives, inside one session, one statement per node, in node
    order, and then one per edge, in the order of the edge view; nothing is
    logged or raised. *)
Theorem persist_sends_the_plan (d : Neo4jDriver) (G : Graph) :
  session_outcome d = Ok tt ->
  exit_outcome d = Ok tt ->
  all_succeed d [] (plan G) ->
  _update_neo4j_with_graph d G []
  = ([Session_opened] ++ map Query_run (plan G) ++ [Session_closed], Ok tt).
Proof.
  intros Hs Hx Hall. rewrite update_unfolded.
  unfold try_except, bind, lift, db_emit, try_finally. rewrite Hs. simpl.
  rewrite (run_in_turn_all d (plan G) [Session_opened] Hall), Hx.
  reflexivity.
Qed.

(** X17.  The first statement that fails ends the writing.  When the
    statements before it succeed and it raises an exception of class
    [Exception], it is the last one sent: the statements after it in the
    plan are not sent, the session is closed, the error is logged and
    nothing is raised. *)
Theorem persist_stops_at_first_failure (d : Neo4jDriver) (G : Graph)
    (pre : list Query) (q : Query) (post : list Query) (e : exn) :
  session_outcome d = Ok tt ->
  exit_outcome d = Ok tt ->
  plan G = pre ++ q :: post ->
  all_succeed d [] pre ->
  run_outcome d pre q = Raise e ->
  is_Exception e = true ->
  _update_neo4j_with_graph d G []
  = ([Session_opened] ++ map Query_run (pre ++ [q])
       ++ [Session_closed; Error_updating e],
     Ok tt).
Proof.
  intros Hs Hx Hplan Hpre Hq He. rewrite update_unfolded.
  unfold try_except, bind, lift, db_emit, try_finally. rewrite Hs. simpl.
  rewrite Hplan.
  rewrite (run_in_turn_fails d pre q post e [Session_opened] Hpre Hq), Hx.
  simpl. rewrite He. simpl. now rewrite <- !app_assoc.
Qed.

(** X18.  Whatever a driver that fails with exceptions of class [Exception]
    does, writing the graph raises nothing; the statements sent are the
    first statements of the plan, in order; and a session that was opened is
    closed. *)
Theorem persist_is_contained (d : Neo4jDriver) (G : Graph) :
  sound_driver d ->
  let r := _update_neo4j_with_graph d G [] in
  snd r = Ok tt
  /\ (exists n, queries_of (fst r) = firstn n (plan G))
  /\ (In Session_opened (fst r) -> In Session_closed (fst r)).
Proof.
  intros Hd r. subst r. rewrite update_unfolded.
  pose proof Hd as (Hs & Hrun & Hx).
  unfold try_except, bind, lift, db_emit, try_finally.
  destruct (session_outcome d) as [[]|e] eqn:Es; simpl.
  - destruct (run_in_turn_prefix d (plan G) [Session_opened]) as [n Hn].
    pose proof (run_in_turn_catchable d (plan G) Hd [Session_opened]) as Hc.
    destruct (run_in_turn d (plan G) [Session_opened]) as [t r] eqn:Er.
    simpl in Hn, Hc. subst t.
    assert (Hq : forall tail,
               queries_of tail = [] ->
               queries_of (([Session_opened]
                            ++ map Query_run (firstn n (plan G))) ++ tail)
               = firstn n (plan G)).
    { intros tail Ht. rewrite !queries_of_app, queries_of_runs, Ht.
      simpl. apply app_nil_r. }
    assert (Hin : forall tail,
               In Session_closed
                  (([Session_opened] ++ map Query_run (firstn n (plan G)))
                   ++ Session_closed :: tail)).
    { intros tail. apply in_or_app. right. now left. }
    destruct (exit_outcome d) as [[]|ex] eqn:Ex.
    + destruct r as [[]|er]; simpl.
      * split; trivial. split; [|intros _; apply (Hin [])].
        exists n. now apply (Hq [Session_closed]).
      * rewrite (Hc er eq_refl). simpl. split; trivial.
        rewrite <- app_assoc. simpl.
        split; [|intros _; right; apply in_or_app; right; now left].
        exists n. now apply (Hq [Session_closed; Error_updating er]).
    + simpl. rewrite (Hx ex eq_refl). simpl. split; trivial.
      rewrite <- app_assoc. simpl.
      split; [|intros _; right; apply in_or_app; right; now left].
      exists n. now apply (Hq [Session_closed; Error_updating ex]).
  - rewrite (Hs e eq_refl). simpl. split; trivial. split.
    + exists 0. reflexivity.
    + intros [H|[]]. discriminate H.
Qed.

(** X19.  The statements of a built graph come in an order the database can
    follow: a relation is sent after the nodes of both its endpoints. *)
Theorem relation_follows_its_entities (summaries : list str)
    (pre post : list Query) (s t lbl : str) :
  plan (built_graph summaries) = pre ++ Merge_relation s t lbl :: post ->
  In (Merge_entity s) pre /\ In (Merge_entity t) pre.
Proof.
  set (G := built_graph summaries). unfold plan. intros E.
  apply app_eq_app in E as [l [[E1 E2]|[E1 E2]]].
  - destruct l as [|q l].
    + simpl in E2.
      assert (Hin : In (Merge_relation s t lbl) (map relation_query (edges G)))
        by (rewrite <- E2; now left).
      apply in_map_iff in Hin as ([[a b] c] & [= -> -> ->] & Hin).
      apply edges_sound in Hin as (_ & Hs & Ht); [|apply built_graph_wf].
      rewrite app_nil_r in E1. subst pre. split; now apply in_map.
    + injection E2 as <- _.
      assert (Hin : In (Merge_relation s t lbl) (map Merge_entity (nodes G)))
        by (rewrite E1; apply in_or_app; right; now left).
      apply in_map_iff in Hin as (x & Hx & _). discriminate Hx.
  - assert (Hin : In (Merge_relation s t lbl) (map relation_query (edges G)))
      by (rewrite E2; apply in_or_app; right; now left).
    apply in_map_iff in Hin as ([[a b] c] & [= -> -> ->] & Hin).
    apply edges_sound in Hin as (_ & Hs & Ht); [|apply built_graph_wf].
    subst pre. split; apply in_or_app; left; now apply in_map.
Qed.

Lemma relation_follows_its_entities_witness :
  In (Merge_entity (lit "Alice")) [Merge_entity (lit "Alice");
                                   Merge_entity (lit "Bob")]
  /\ In (Merge_entity (lit "Bob")) [Merge_entity (lit "Alice");
                                    Merge_entity (lit "Bob")].
Proof.
  apply (relation_follows_its_entities [summary_alice_bob]
           [Merge_entity (lit "Alice"); Merge_entity (lit "Bob")] []
           (lit "Alice") (lit "Bob") (lit "knows")).
  vm_compute. reflexivity.
Defined.

Lemma all_succeed_always (d : Neo4jDriver) (qs : list Query) :
  (forall before q, run_outcome d before q = Ok tt) ->
  forall before, all_succeed d before qs.
Proof.
  intros H. induction qs as [|q qs IH]; intros before; simpl; auto.
Qed.

Lemma persist_sends_the_plan_witness :
  let d := mkNeo4jDriver (Ok tt) (fun _ _ => Ok tt) (Ok tt) in
  _update_neo4j_with_graph d (built_graph [summary_alice_bob]) []
  = ([Session_opened]
       ++ map Query_run (plan (built_graph [summary_alice_bob]))
       ++ [Session_closed],
     Ok tt).
Proof.
  apply (persist_sends_the_plan
           (mkNeo4jDriver (Ok tt) (fun _ _ => Ok tt) (Ok tt))
           (built_graph [summary_alice_bob])); try reflexivity.
  apply all_succeed_always. reflexivity.
Defined.

Lemma persist_stops_at_first_failure_witness :
  let refuse_bob := fun (_ : list Query) q =>
        match q with
        | Merge_entity ("B"%char :: _) => Raise DriverError
        | _ => Ok tt
        end in
  let d := mkNeo4jDriver (Ok tt) refuse_bob (Ok tt) in
  _update_neo4j_with_graph d (built_graph [summary_alice_bob]) []
  = ([Session_opened]
       ++ map Query_run ([Merge_entity (lit "Alice")]
                         ++ [Merge_entity (lit "Bob")])
       ++ [Session_closed; Error_updating DriverError],
     Ok tt).
Proof.
  intros refuse_bob d.
  apply (persist_stops_at_first_failure d (built_graph [summary_alice_bob])
           [Merge_entity (lit "Alice")] (Merge_entity (lit "Bob"))
           [Merge_relation (lit "Alice") (lit "Bob") (lit "knows")]
           DriverError); try reflexivity.
  simpl. auto.
Defined.

Lemma persist_is_contained_witness :
  let d := mkNeo4jDriver (Ok tt) (fun _ _ => Raise DriverError) (Ok tt) in
  let r := _update_neo4j_with_graph d (built_graph [summary_alice_bob]) [] in
  snd r = Ok tt
  /\ (exists n, queries_of (fst r)
                = firstn n (plan (built_graph [summary_alice_bob])))
  /\ (In Session_opened (fst r) -> In Session_closed (fst r)).
Proof.
  intros d.
  apply (persist_is_contained d (built_graph [summary_alice_bob])).
  repeat split; intros; simpl in *; try discriminate.
  match goal with H : Raise _ = Raise _ |- _ => now injection H as <- end.
Defined.

(** ** More on the chunker: when it raises *)

Lemma documents_loop_total (documents : list str) (L O : Z) :
  L <> O -> forall acc, exists chunks,
    documents_loop documents L O acc = Ok chunks.
Proof.
  intros Hne. induction documents as [|d ds IH]; intros acc; simpl.
  - eauto.
  - unfold py_range. destruct (Z.eqb_spec (L - O) 0); [lia|]. apply IH.
Qed.

(** X6.  The chunker raises in one case only, a chunk length equal to the
    overlap with at least one document, and then with [ValueError]. *)
Theorem chunker_raises_iff (documents : list str) (L O : Z) (e : exn) :
  _split_documents_into_chunks documents L O = Raise e
  <-> e = ValueError /\ L = O /\ documents <> [].
Proof.
  unfold _split_documents_into_chunks. split.
  - intros H. destruct (Z.eq_dec L O) as [->|Hne].
    + destruct documents as [|d ds]; [discriminate H|].
      simpl in H. unfold py_range in H. rewrite Z.sub_diag in H. simpl in H.
      injection H as <-. repeat split. discriminate.
    + destruct (documents_loop_total documents L O Hne []) as [c Hc].
      congruence.
  - intros (-> & -> & Hd). destruct documents as [|d ds]; [congruence|].
    simpl. unfold py_range. now rewrite Z.sub_diag.
Qed.

(** ** The stages on a directory *)

Lemma bind_ok {W A B} (m : M W A) (f : A -> M W B) (w w' : W) (a : A) :
  m w = (w', Ok a) -> bind m f w = f a w'.
Proof. intros H. unfold bind. now rewrite H. Qed.

Lemma bind_raise {W A B} (m : M W A) (f : A -> M W B) (w w' : W) (e : exn) :
  m w = (w', Raise e) -> bind m f w = (w', Raise e).
Proof. intros H. unfold bind. now rewrite H. Qed.

Lemma endswith_iff (s suffix : str) :
  endswith s suffix = true <-> exists pre, s = pre ++ suffix.
Proof.
  unfold endswith. split.
  - intros H. apply startswith_app in H. rewrite length_rev in H.
    exists (rev (skipn (length suffix) (rev s))).
    apply (f_equal (@rev _)) in H.
    now rewrite rev_involutive, rev_app_distr, rev_involutive in H.
  - intros [pre ->]. rewrite rev_app_distr.
    generalize (rev suffix) (rev pre). intros p q.
    induction p as [|c p IH]; simpl; trivial.
    now rewrite Ascii.eqb_refl.
Qed.

Section Reading.

Variable dir : str.
Variable fs : FileSystem.

Let path (f : str) : str := os_path_join dir f.

Lemma read_one_ok (f text : str) (acc : list str) (u : Run) :
  read_text fs (path f) = Ok text ->
  read_body dir fs f acc u
  = (mkRun (opened u ++ [path f]) (service u) (database u) (builder_log u)
           (stage_log u ++ [Info_reading (path f)]),
     Ok (acc ++ [text])).
Proof.
  intros H. unfold read_body, bind, stage_logger, open_and_read. simpl.
  fold (path f). now rewrite H.
Qed.

Lemma read_one_raise (f : str) (e : exn) (acc : list str) (u : Run) :
  read_text fs (path f) = Raise e ->
  read_body dir fs f acc u
  = (mkRun (opened u ++ [path f]) (service u) (database u) (builder_log u)
           (stage_log u ++ [Info_reading (path f)]),
     Raise e).
Proof.
  intros H. unfold read_body, bind, stage_logger, open_and_read. simpl.
  fold (path f). now rewrite H.
Qed.

Lemma read_loop_all (files texts : list str) :
  Forall2 (fun f text => read_text fs (path f) = Ok text) files texts ->
  forall acc u,
    for_each files (read_body dir fs) acc u
    = (mkRun (opened u ++ map path files) (service u) (database u)
             (builder_log u)
             (stage_log u ++ map (fun f => Info_reading (path f)) files),
       Ok (acc ++ texts)).
Proof.
  induction 1 as [|f text files texts Hf _ IH]; intros acc u; simpl.
  - rewrite !app_nil_r. now destruct u.
  - rewrite (bind_ok _ _ _ _ _ (read_one_ok f text acc u Hf)).
    rewrite IH. simpl. now rewrite <- !app_assoc.
Qed.

Lemma read_loop_fails (pre texts : list str) (f : str) (post : list str)
    (e : exn) :
  Forall2 (fun f text => read_text fs (path f) = Ok text) pre texts ->
  read_text fs (path f) = Raise e ->
  forall acc u,
    for_each (pre ++ f :: post) (read_body dir fs) acc u
    = (mkRun (opened u ++ map path (pre ++ [f])) (service u) (database u)
             (builder_log u)
             (stage_log u
              ++ map (fun f => Info_reading (path f)) (pre ++ [f])),
       Raise e).
Proof.
  intros Hpre Hf. induction Hpre as [|p text pre texts Hp _ IH];
    intros acc u; simpl.
  - now rewrite (bind_raise _ _ _ _ _ (read_one_raise f e acc u Hf)).
  - rewrite (bind_ok _ _ _ _ _ (read_one_ok p text acc u Hp)).
    rewrite IH. simpl. now rewrite <- !app_assoc.
Qed.

End Reading.

(** The stages, after the listing. *)
Lemma stages_unfolded (dir : str) (fs : FileSystem) (complete : Completion)
    (d : Neo4jDriver) (u : Run) :
  Stages._process_txts_and_update_neo4j dir fs complete d u
  = try_except
      (names <- lift (listdir fs) ;;
       match text_files names with
       | [] => stage_logger Warning_no_text_files
       | _ :: _ =>
           documents <- for_each (text_files names) (read_body dir fs) [] ;;
           chunks <- lift (_split_documents_into_chunks documents
                             default_chunk_size default_overlap_size) ;;
           elements <-
             on_service (_extract_elements_from_chunks complete chunks) ;;
           summaries <-
             on_service (_summarize_elements complete elements) ;;
           G <- on_builder (_build_graph_from_summaries summaries) ;;
           on_database (_update_neo4j_with_graph d G) ;;;
           stage_logger Info_updated
       end)
      (fun e => stage_logger (Error_in_stages e)) u.
Proof. reflexivity. Qed.

Lemma text_files_none (names : list str) :
  (forall f, In f names -> endswith f (lit ".txt") = false) ->
  text_files names = [].
Proof.
  unfold text_files. induction names as [|f names IH]; intros H;
    cbn [filter]; trivial.
  rewrite (H f) by now left. apply IH. intros; apply H; now right.
Qed.

(** X21.  A directory without a name in ".txt" ends the stages at once: a
    warning is logged; no file is opened, no request is sent, no session is
    opened, and nothing is raised. *)
Theorem no_text_file_no_work (dir : str) (fs : FileSystem)
    (complete : Completion) (d : Neo4jDriver) (names : list str) (u : Run) :
  listdir fs = Ok names ->
  (forall f, In f names -> endswith f (lit ".txt") = false) ->
  Stages._process_txts_and_update_neo4j dir fs complete d u
  = (mkRun (opened u) (service u) (database u) (builder_log u)
           (stage_log u ++ [Warning_no_text_files]),
     Ok tt).
Proof.
  intros Hl Hnone. rewrite stages_unfolded. unfold try_except.
  erewrite bind_ok by (unfold lift; rewrite Hl; reflexivity).
  now rewrite (text_files_none names Hnone).
Qed.

Lemma no_text_file_no_work_witness :
  let fs := mkFileSystem (Ok [lit "notes.md"; lit "txt"])
                         (fun _ => Raise ValueError) in
  let d := mkNeo4jDriver (Ok tt) (fun _ _ => Ok tt) (Ok tt) in
  Stages._process_txts_and_update_neo4j (lit "../../data/") fs
    (fun _ _ user => Ok user) d start
  = (mkRun [] (mkService [] []) [] [] [Warning_no_text_files], Ok tt).
Proof.
  intros fs d.
  apply (no_text_file_no_work (lit "../../data/") fs
           (fun _ _ user => Ok user) d [lit "notes.md"; lit "txt"] start).
  - reflexivity.
  - intros f [<-|[<-|[]]]; reflexivity.
Defined.

(** X22.  A file that cannot be read ends the stages.  The text files are
    opened in the order of the listing, under the directory path; at the
    first one whose reading raises an exception of class [Exception] the
    error is logged and nothing is raised: the files after it are not
    opened, no request is sent and no session is opened. *)
Theorem unreadable_file_ends_the_stages (dir : str) (fs : FileSystem)
    (complete : Completion) (d : Neo4jDriver) (names : list str)
    (pre texts : list str) (f : str) (post : list str) (e : exn) :
  listdir fs = Ok names ->
  text_files names = pre ++ f :: post ->
  Forall2 (fun p text => read_text fs (os_path_join dir p) = Ok text)
          pre texts ->
  read_text fs (os_path_join dir f) = Raise e ->
  is_Exception e = true ->
  Stages._process_txts_and_update_neo4j dir fs complete d start
  = (mkRun (map (os_path_join dir) (pre ++ [f])) (mkService [] []) [] []
           (map (fun p => Info_reading (os_path_join dir p)) (pre ++ [f])
            ++ [Error_in_stages e]),
     Ok tt).
Proof.
  intros Hl Hfiles Hpre Hf He. rewrite stages_unfolded. unfold try_except.
  erewrite bind_ok by (unfold lift; rewrite Hl; reflexivity).
  rewrite Hfiles.
  match goal with
  | |- context [match pre ++ f :: post with [] => ?A | _ :: _ => ?B end] =>
      replace (match pre ++ f :: post with [] => A | _ :: _ => B end)
        with B by (destruct pre; reflexivity)
  end.
  erewrite bind_raise
    by (apply (read_loop_fails dir fs pre texts f post e Hpre Hf)).
  rewrite He. reflexivity.
Qed.

Lemma extract_returns (complete : Completion) (chunks : list str)
    (w : Service) :
  dependable complete ->
  exists records,
    _extract_elements_from_chunks complete chunks w
    = (mkService (requests w ++ map (pair extract_system) chunks)
                 (service_log w ++ records),
       Ok (answers complete extract_system (requests w) chunks)).
Proof.
  intros Hdep.
  destruct (ask_each complete Hdep extract_system Info_element_list
              Error_extracting (fun _ => eq_refl) (fun _ _ => eq_refl)
              chunks 0 [] w) as (records & E & _).
  exists records. exact E.
Qed.

Lemma summarize_returns (complete : Completion) (elements : list str)
    (w : Service) :
  dependable complete ->
  exists records,
    _summarize_elements complete elements w
    = (mkService (requests w ++ map (pair summarize_system) elements)
                 (service_log w ++ records),
       Ok (answers complete summarize_system (requests w) elements)).
Proof.
  intros Hdep.
  destruct (ask_each complete Hdep summarize_system Info_summary_list
              Error_summarizing (fun _ => eq_refl) (fun _ _ => eq_refl)
              elements 0 [] w) as (records & E & _).
  exists records. exact E.
Qed.

Lemma on_service_ok {A} (m : M Service A) (u : Run) (s : Service) (a : A) :
  m (service u) = (s, Ok a) ->
  on_service m u
  = (mkRun (opened u) s (database u) (builder_log u) (stage_log u), Ok a).
Proof. intros H. unfold on_service. now rewrite H. Qed.

Lemma on_database_ok {A} (m : M (list DbEvent) A) (u : Run)
    (t : list DbEvent) (a : A) :
  m (database u) = (t, Ok a) ->
  on_database m u
  = (mkRun (opened u) (service u) t (builder_log u) (stage_log u), Ok a).
Proof. intros H. unfold on_database. now rewrite H. Qed.

Lemma on_builder_fresh (summaries : list str) (u : Run) :
  builder_log u = [] ->
  on_builder (_build_graph_from_summaries summaries) u
  = (mkRun (opened u) (service u) (database u) (built_log summaries)
           (stage_log u),
     Ok (built_graph summaries)).
Proof.
  intros H. unfold on_builder. rewrite H.
  pose proof (built_graph_returned summaries) as Hr.
  unfold built_log, built_graph in *. unfold fresh in *.
  destruct (_build_graph_from_summaries summaries (mkWorld empty_graph []))
    as [w r]. simpl in *. now rewrite Hr.
Qed.

Lemma update_sends_plan (d : Neo4jDriver) (G : Graph) :
  session_outcome d = Ok tt ->
  exit_outcome d = Ok tt ->
  (forall before q, run_outcome d before q = Ok tt) ->
  _update_neo4j_with_graph d G []
  = ([Session_opened] ++ map Query_run (plan G) ++ [Session_closed], Ok tt).
Proof.
  intros Hs Hx Hall. rewrite update_unfolded.
  unfold try_except, bind, lift, db_emit, try_finally. rewrite Hs. simpl.
  rewrite (run_in_turn_all d (plan G) [Session_opened]), Hx; trivial.
  now apply all_succeed_always.
Qed.

(** X23.  The stages from end to end.  When the listing has text files that
    can all be read, the service fails only with exceptions of class
    [Exception] and the database accepts every statement, the stages open
    the text files in listing order, chunk their texts with the default
    sizes, ask the service once per chunk and then once per element obtained,
    build the graph of the summaries obtained, and send its plan inside one
    session; nothing is raised. *)
Theorem stages_end_to_end (dir : str) (fs : FileSystem)
    (complete : Completion) (d : Neo4jDriver) (names texts : list str) :
  listdir fs = Ok names ->
  text_files names <> [] ->
  Forall2 (fun p text => read_text fs (os_path_join dir p) = Ok text)
          (text_files names) texts ->
  dependable complete ->
  session_outcome d = Ok tt ->
  exit_outcome d = Ok tt ->
  (forall before q, run_outcome d before q = Ok tt) ->
  exists chunks,
    _split_documents_into_chunks texts default_chunk_size
      default_overlap_size = Ok chunks
    /\ let elements := answers complete extract_system [] chunks in
       let summaries :=
         answers complete summarize_system
                 (map (pair extract_system) chunks) elements in
       let r := Stages._process_txts_and_update_neo4j dir fs complete d
                  start in
       snd r = Ok tt
       /\ opened (fst r) = map (os_path_join dir) (text_files names)
       /\ requests (service (fst r))
          = map (pair extract_system) chunks
            ++ map (pair summarize_system) elements
       /\ builder_log (fst r) = built_log summaries
       /\ database (fst r)
          = [Session_opened]
              ++ map Query_run (plan (built_graph summaries))
              ++ [Session_closed]
       /\ stage_log (fst r)
          = map (fun p => Info_reading (os_path_join dir p))
                (text_files names)
            ++ [Info_updated].
Proof.
  intros Hl Hne Hread Hdep Hs Hx Hrun.
  destruct (documents_loop_total texts default_chunk_size
              default_overlap_size ltac:(discriminate) []) as [chunks Hc].
  exists chunks. split; [exact Hc|].
  intros elements summaries r. subst r.
  rewrite stages_unfolded. unfold try_except.
  erewrite bind_ok by (unfold lift; rewrite Hl; reflexivity).
  destruct (text_files names) as [|f0 files] eqn:Ef; [congruence|].
  erewrite bind_ok by (apply (read_loop_all dir fs _ texts Hread)).
  erewrite bind_ok
    by (unfold lift; simpl app;
        change (_split_documents_into_chunks texts default_chunk_size
                  default_overlap_size)
          with (documents_loop texts default_chunk_size
                  default_overlap_size []);
        rewrite Hc; reflexivity).
  destruct (extract_returns complete chunks (mkService [] []) Hdep)
    as (rec1 & E1).
  erewrite bind_ok by (apply on_service_ok; exact E1).
  destruct (summarize_returns complete elements
              (mkService ([] ++ map (pair extract_system) chunks)
                         ([] ++ rec1)) Hdep) as (rec2 & E2).
  erewrite bind_ok by (apply on_service_ok; exact E2).
  erewrite bind_ok by (apply on_builder_fresh; reflexivity).
  erewrite bind_ok
    by (apply on_database_ok; apply update_sends_plan; assumption).
  simpl. repeat split; reflexivity.
Qed.

Lemma second_request_fails_dependable : dependable second_request_fails.
Proof.
  intros before system user e. unfold second_request_fails.
  destruct before as [|x [|y rest]]; intros H; try discriminate H.
  now injection H as <-.
Qed.

Lemma fixed_answers_dependable : dependable fixed_answers.
Proof.
  intros before system user e. unfold fixed_answers.
  destruct (startswith system (lit "Extract")); discriminate.
Qed.

Lemma extraction_isolates_failures_witness :
  let chunks := [lit "one"; lit "two"; lit "three"] in
  let w := mkService [] [] in
  let r := _extract_elements_from_chunks second_request_fails chunks w in
  let elements :=
    answers second_request_fails extract_system (requests w) chunks in
  let failed :=
    failures second_request_fails extract_system (requests w) 0 chunks in
  elements = [lit "one"; lit "three"]
  /\ failed = [(1, ValueError)]
  /\ snd r = Ok elements
  /\ requests (fst r) = requests w ++ map (pair extract_system) chunks
  /\ filter is_error_record (service_log (fst r))
     = filter is_error_record (service_log w)
       ++ map (fun ie => Error_extracting (fst ie) (snd ie)) failed
  /\ length elements + length failed = length chunks.
Proof.
  split; [reflexivity|]. split; [reflexivity|].
  apply (extraction_isolates_failures second_request_fails
           [lit "one"; lit "two"; lit "three"] (mkService [] [])).
  exact second_request_fails_dependable.
Defined.

Lemma summaries_isolate_failures_witness :
  let elements := [lit "one"; lit "two"; lit "three"] in
  let w := mkService [] [] in
  let r := _summarize_elements second_request_fails elements w in
  let summaries :=
    answers second_request_fails summarize_system (requests w) elements in
  let failed :=
    failures second_request_fails summarize_system (requests w) 0 elements in
  snd r = Ok summaries
  /\ requests (fst r) = requests w ++ map (pair summarize_system) elements
  /\ filter is_error_record (service_log (fst r))
     = filter is_error_record (service_log w)
       ++ map (fun ie => Error_summarizing (fst ie) (snd ie)) failed
  /\ length summaries + length failed = length elements.
Proof.
  apply (summaries_isolate_failures second_request_fails
           [lit "one"; lit "two"; lit "three"] (mkService [] [])).
  exact second_request_fails_dependable.
Defined.

Lemma unreadable_file_ends_the_stages_witness :
  Stages._process_txts_and_update_neo4j (lit "../../data/")
    unreadable_second fixed_answers accepting start
  = (mkRun (map (os_path_join (lit "../../data/"))
                ([lit "a.txt"] ++ [lit "c.txt"]))
           (mkService [] []) [] []
           (map (fun p => Info_reading (os_path_join (lit "../../data/") p))
                ([lit "a.txt"] ++ [lit "c.txt"])
            ++ [Error_in_stages ValueError]),
     Ok tt).
Proof.
  apply (unreadable_file_ends_the_stages (lit "../../data/")
           unreadable_second fixed_answers accepting
           [lit "a.txt"; lit "b.md"; lit "c.txt"; lit "d.txt"]
           [lit "a.txt"] [lit "Alice knows Bob."] (lit "c.txt")
           [lit "d.txt"] ValueError); try reflexivity.
  repeat constructor.
Defined.

Lemma stages_end_to_end_witness :
  exists chunks,
    _split_documents_into_chunks [lit "Alice knows Bob."] default_chunk_size
      default_overlap_size = Ok chunks
    /\ let elements := answers fixed_answers extract_system [] chunks in
       let summaries :=
         answers fixed_answers summarize_system
                 (map (pair extract_system) chunks) elements in
       let r := Stages._process_txts_and_update_neo4j (lit "../../data/")
                  one_text_file fixed_answers accepting start in
       snd r = Ok tt
       /\ opened (fst r)
          = map (os_path_join (lit "../../data/"))
                (text_files [lit "a.txt"; lit "b.md"])
       /\ requests (service (fst r))
          = map (pair extract_system) chunks
            ++ map (pair summarize_system) elements
       /\ builder_log (fst r) = built_log summaries
       /\ database (fst r)
          = [Session_opened]
              ++ map Query_run (plan (built_graph summaries))
              ++ [Session_closed]
       /\ stage_log (fst r)
          = map (fun p => Info_reading (os_path_join (lit "../../data/") p))
                (text_files [lit "a.txt"; lit "b.md"])
            ++ [Info_updated].
Proof.
  apply (stages_end_to_end (lit "../../data/") one_text_file fixed_answers
           accepting [lit "a.txt"; lit "b.md"] [lit "Alice knows Bob."]);
    try reflexivity.
  - discriminate.
  - repeat constructor.
  - exact fixed_answers_dependable.
Defined.

(** X20.  The text files of a listing are the names that end in ".txt",
    letter for letter, the bare name ".txt" included; they keep the order of
    the listing. *)
Theorem text_files_are_the_txt_names (names : list str) (f : str) :
  (In f (text_files names)
   <-> In f names /\ exists stem, f = stem ++ lit ".txt")
  /\ (forall before after,
        text_files (before ++ f :: after)
        = text_files before
          ++ (if endswith f (lit ".txt") then [f] else [])
          ++ text_files after).
Proof.
  split.
  - unfold text_files. rewrite filter_In, endswith_iff. reflexivity.
  - intros before after. unfold text_files.
    rewrite filter_app. cbn [filter].
    now destruct (endswith f (lit ".txt")).
Qed.

(** ** The top-level run, once connected *)

(** X24.  Once the driver is obtained, [driver.close] is called exactly once,
    as the last call of the run, whatever the stages and [close] itself do.
    An exception of class [Exception] raised by the stages does not leave
    the run; what leaves it is an exception raised by [close], or else one
    of the stages that is not of class [Exception]. *)
Theorem connected_run_closes_the_driver (dr : unit) (st cl : result unit) :
  let r := process_txts_and_update_neo4j
             (mkCollaborators (Ok dr) st cl) entry in
  (exists before,
      trace (fst r) = before ++ [Call_close] /\ ~ In Call_close before)
  /\ snd r
     = match cl with
       | Raise e => Raise e
       | Ok _ =>
           match st with
           | Raise e => if is_Exception e then Ok tt else Raise e
           | Ok _ => Ok tt
           end
       end.
Proof.
  destruct dr, st as [[]|e], cl as [[]|e']; try destruct e; simpl;
    (split;
     [ match goal with
       | |- exists b, ?t = _ /\ _ => exists (removelast t)
       end;
       simpl; split; [reflexivity | intuition discriminate]
     | reflexivity ]).
Qed.
